(** * dbibackend: the DBI0 command protocol of [dbibackend/dbi.py]

    A shallow embedding of the protocol engine of [dbi.py]: the 16-byte
    header framing done with [struct], the command loop [poll_commands],
    and the three handlers [process_exit_command], [process_list_command]
    and [process_file_range_command].

    Python values are modelled as follows.
    - [int] is [Z]; [struct] range checks are written out.
    - [bytes] / [array('B')] is [list byte].
    - [str] is a list of Unicode code points ([list Z]).
    - an exception is a constructor of [exn]; code that can raise runs in
      the state-and-error monad [M] over the [world] (USB endpoints and
      logger).
    - [OrderedDict] is an association list with Python's update-in-place /
      append-at-end behaviour. *)

From Stdlib Require Import ZArith List Bool Lia Strings.Byte String Ascii.
Import ListNotations.
Open Scope Z_scope.

(** ** Bytes and Python slices *)

Definition bytes := list byte.

Definition byte_val (b : byte) : Z := Z.of_N (Byte.to_N b).

Definition byte_of_Z (n : Z) : byte :=
  match Byte.of_N (Z.to_N (n mod 256)) with
  | Some b => b
  | None => x00
  end.

(** [l[lo:hi]] for [0 <= lo <= hi]; out-of-range bounds are clipped, as in
    Python. *)
Definition slice {A} (lo hi : nat) (l : list A) : list A :=
  firstn (hi - lo) (skipn lo l).

(** [l[lo:]] *)
Definition slice_from {A} (lo : nat) (l : list A) : list A := skipn lo l.

(** [b.startswith(prefix)] *)
Fixpoint startswith (b prefix : bytes) {struct prefix} : bool :=
  match prefix, b with
  | [], _ => true
  | p :: prefix', x :: b' => Byte.eqb x p && startswith b' prefix'
  | _ :: _, [] => false
  end.

(** ** The [struct] module, little-endian standard sizes *)

Module Struct.

(** [n] bytes of [v], least significant first. *)
Fixpoint to_le (n : nat) (v : Z) : bytes :=
  match n with
  | O => []
  | S n' => byte_of_Z v :: to_le n' (v / 256)
  end.

Fixpoint of_le (b : bytes) : Z :=
  match b with
  | [] => 0
  | x :: b' => byte_val x + 256 * of_le b'
  end.

Definition U32_MAX : Z := 4294967295.
Definition U64_MAX : Z := 18446744073709551615.

(** [struct.pack('<I', v)]; [None] is [struct.error]. *)
Definition pack_I (v : Z) : option bytes :=
  if (0 <=? v) && (v <=? U32_MAX) then Some (to_le 4 v) else None.

(** [struct.unpack('<I', b)[0]]; [None] is [struct.error] (the buffer is
    not 4 bytes long). *)
Definition unpack_I (b : bytes) : option Z :=
  if Nat.eqb (List.length b) 4 then Some (of_le b) else None.

(** [struct.unpack('<Q', b)[0]] *)
Definition unpack_Q (b : bytes) : option Z :=
  if Nat.eqb (List.length b) 8 then Some (of_le b) else None.

(** The ['4s'] field: the argument cut or zero-padded to 4 bytes. *)
Definition pack_4s (s : bytes) : bytes :=
  firstn 4 (s ++ [x00; x00; x00; x00]).

(** [struct.pack('<4sIII', s, a, b, c)] *)
Definition pack_4sIII (s : bytes) (a b c : Z) : option bytes :=
  match pack_I a, pack_I b, pack_I c with
  | Some ba, Some bb, Some bc => Some (pack_4s s ++ ba ++ bb ++ bc)
  | _, _, _ => None
  end.

End Struct.

(** ** Protocol constants *)

Definition BUFFER_SEGMENT_DATA_SIZE : Z := 0x100000.

Module CommandID.
Definition EXIT : Z := 0.
Definition LIST_DEPRECATED : Z := 1.
Definition FILE_RANGE : Z := 2.
Definition LIST : Z := 3.
End CommandID.

Module CommandType.
Definition REQUEST : Z := 0.
Definition RESPONSE : Z := 1.
Definition ACK : Z := 2.
End CommandType.

(** [b'DBI0'] *)
Definition MAGIC : bytes := [x44; x42; x49; x30].

(** The header every handler builds:
    [struct.pack('<4sIII', b'DBI0', cmd_type, cmd_id, data_size)]. *)
Definition encode_header (cmd_type cmd_id data_size : Z) : option bytes :=
  Struct.pack_4sIII MAGIC cmd_type cmd_id data_size.

(** What [poll_commands] does with the 16 bytes it has read (lines 149 to
    155): without the magic the bytes are skipped; otherwise the three
    fields are unpacked, each of which raises [struct.error] on a slice that
    is not 4 bytes long. *)
Inductive decoded :=
| NotAHeader
| Header (cmd_type cmd_id data_size : Z)
| DecodeError.

Definition decode_header (cmd_header : bytes) : decoded :=
  if negb (startswith cmd_header MAGIC) then NotAHeader
  else
    match Struct.unpack_I (slice 4 8 cmd_header) with
    | None => DecodeError
    | Some cmd_type =>
      match Struct.unpack_I (slice 8 12 cmd_header) with
      | None => DecodeError
      | Some cmd_id =>
        match Struct.unpack_I (slice 12 16 cmd_header) with
        | None => DecodeError
        | Some data_size => Header cmd_type cmd_id data_size
        end
      end
    end.

(** ** Python [str] *)

(** A [str] is its sequence of code points. *)
Definition str := list Z.

Definition ord (a : ascii) : Z := Z.of_N (N_of_ascii a).

(** An ASCII literal of the source. *)
Definition lit (s : string) : str := map ord (list_ascii_of_string s).

Fixpoint str_eqb (a b : str) : bool :=
  match a, b with
  | [], [] => true
  | x :: a', y :: b' => (x =? y) && str_eqb a' b'
  | _, _ => false
  end.

(** [str.lower] on one code point of the ASCII range. Outside ASCII the
    code point is kept: the only code points there whose lowercase form
    holds an ASCII character are U+212A (to "k") and U+0130 (to "i" followed
    by U+0307), which can make none of the three suffixes tested below. *)
Definition lower_char (c : Z) : Z :=
  if (65 <=? c) && (c <=? 90) then c + 32 else c.

Definition lower (s : str) : str := map lower_char s.

(** [s.endswith(suffix)] *)
Definition endswith (s suffix : str) : bool :=
  (List.length suffix <=? List.length s)%nat
  && str_eqb (skipn (List.length s - List.length suffix) s) suffix.

(** ** The UTF-8 codec, strict error handling *)

Module Utf8.

(** The bytes of one code point; [None] is [UnicodeEncodeError] (a
    surrogate, which [os.walk] yields for a file name that is not valid
    UTF-8). *)
Definition encode_char (c : Z) : option bytes :=
  if c <? 0 then None
  else if c <? 0x80 then Some [byte_of_Z c]
  else if c <? 0x800 then
    Some [byte_of_Z (0xC0 + c / 64); byte_of_Z (0x80 + c mod 64)]
  else if c <? 0x10000 then
    if (0xD800 <=? c) && (c <=? 0xDFFF) then None
    else Some [byte_of_Z (0xE0 + c / 4096);
               byte_of_Z (0x80 + (c / 64) mod 64);
               byte_of_Z (0x80 + c mod 64)]
  else if c <? 0x110000 then
    Some [byte_of_Z (0xF0 + c / 262144);
          byte_of_Z (0x80 + (c / 4096) mod 64);
          byte_of_Z (0x80 + (c / 64) mod 64);
          byte_of_Z (0x80 + c mod 64)]
  else None.

(** [s.encode('utf-8')] *)
Fixpoint encode (s : str) : option bytes :=
  match s with
  | [] => Some []
  | c :: s' =>
    match encode_char c, encode s' with
    | Some a, Some b => Some (a ++ b)
    | _, _ => None
    end
  end.

(** Number of bytes of one code point, for a code point that encodes. *)
Definition width (c : Z) : Z :=
  if c <? 0x80 then 1 else if c <? 0x800 then 2
  else if c <? 0x10000 then 3 else 4.

(** Number of bytes of a string whose code points all encode. *)
Definition byte_length (s : str) : Z :=
  fold_right (fun c n => width c + n) 0 s.

Definition cont (v : Z) : bool := (0x80 <=? v) && (v <=? 0xBF).

Definition within (lo hi v : Z) : bool := (lo <=? v) && (v <=? hi).

(** [b.decode('utf-8')]; [None] is [UnicodeDecodeError]: a stray
    continuation byte, a truncated or overlong sequence, a surrogate or a
    value above U+10FFFF. *)
Fixpoint decode (b : bytes) : option str :=
  match b with
  | [] => Some []
  | b0 :: r0 =>
    let v0 := byte_val b0 in
    if v0 <? 0x80 then option_map (cons v0) (decode r0)
    else if within 0xC2 0xDF v0 then
      match r0 with
      | b1 :: r1 =>
        let v1 := byte_val b1 in
        if cont v1
        then option_map (cons ((v0 - 0xC0) * 64 + (v1 - 0x80))) (decode r1)
        else None
      | _ => None
      end
    else if within 0xE0 0xEF v0 then
      match r0 with
      | b1 :: b2 :: r2 =>
        let v1 := byte_val b1 in
        let v2 := byte_val b2 in
        if within (if v0 =? 0xE0 then 0xA0 else 0x80)
                  (if v0 =? 0xED then 0x9F else 0xBF) v1
           && cont v2
        then option_map
               (cons ((v0 - 0xE0) * 4096 + (v1 - 0x80) * 64 + (v2 - 0x80)))
               (decode r2)
        else None
      | _ => None
      end
    else if within 0xF0 0xF4 v0 then
      match r0 with
      | b1 :: b2 :: b3 :: r3 =>
        let v1 := byte_val b1 in
        let v2 := byte_val b2 in
        let v3 := byte_val b3 in
        if within (if v0 =? 0xF0 then 0x90 else 0x80)
                  (if v0 =? 0xF4 then 0x8F else 0xBF) v1
           && cont v2 && cont v3
        then option_map
               (cons ((v0 - 0xF0) * 262144 + (v1 - 0x80) * 4096
                      + (v2 - 0x80) * 64 + (v3 - 0x80)))
               (decode r3)
        else None
      | _ => None
      end
    else None
  end.

End Utf8.

(** ** [collections.OrderedDict] with [str] keys and values *)

Module OrderedDict.

Definition t := list (str * str).

Definition empty : t := [].

(** [d[k] = v]: an existing key keeps its position and takes the new
    value, a new key goes to the end. *)
Fixpoint set (d : t) (k v : str) : t :=
  match d with
  | [] => [(k, v)]
  | (k', v') :: d' =>
    if str_eqb k' k then (k', v) :: d' else (k', v') :: set d' k v
  end.

(** [d[k]], [None] when the key is absent. *)
Fixpoint get (d : t) (k : str) : option str :=
  match d with
  | [] => None
  | (k', v') :: d' => if str_eqb k' k then Some v' else get d' k
  end.

(** [k in d] *)
Definition contains (d : t) (k : str) : bool :=
  match get d k with Some _ => true | None => false end.

(** [d.keys()], in iteration order. *)
Definition keys (d : t) : list str := map fst d.

(** [len(d)] *)
Definition len (d : t) : Z := Z.of_nat (List.length d).

End OrderedDict.

(** ** Exceptions, the logger and the USB endpoints *)

Inductive exn :=
| StructError          (* struct.error *)
| UnicodeDecodeError
| UnicodeEncodeError
| OSError              (* open() on a path that cannot be opened *)
| ValueError           (* seek() to an offset that does not fit off_t *)
| USBError             (* a failed endpoint transfer *)
| SystemExit (code : Z).

(** The outcome of running a piece of the program: it returned, it raised,
    or the fuel given to a [while] loop of the model ran out while the loop
    was still running. *)
Inductive result (A : Type) :=
| Ok (a : A)
| Raise (e : exn)
| OutOfFuel.
Arguments Ok {A} a.
Arguments Raise {A} e.
Arguments OutOfFuel {A}.

Inductive level := DEBUG | INFO | WARNING.

(** The calls made to [log], with the values formatted into the message. *)
Inductive message :=
| MsgEnteringCommandLoop
| MsgCmd (cmd_type cmd_id data_size : Z)
| MsgUnknownCommandId (cmd_id : Z)
| MsgExit
| MsgGetList
| MsgFoundDirectory (dirName : str)
| MsgFile (filename : str)
| MsgAck
| MsgFileRange
| MsgRange (range_size range_offset nsp_name_len : Z) (nsp_name : str)
| MsgUnexpectedEOF.

(** Which [context.write] call of the source put a block on the wire. *)
Inductive origin :=
| FileRangeAck        (* line 67 *)
| FileRangeResponse   (* line 80 *)
| FileData            (* line 103 *)
| ExitResponse        (* line 110 *)
| ListResponse        (* line 131 *)
| ListPayload.        (* line 140 *)

(** The header writes among them. *)
Definition is_header_write (o : origin) : bool :=
  match o with
  | FileRangeAck | FileRangeResponse | ExitResponse | ListResponse => true
  | FileData | ListPayload => false
  end.

(** The state the program acts on. [usb_in] holds the bytes the peer will
    deliver on the IN endpoint, [usb_out] the blocks written to the OUT
    endpoint so far (oldest first), [log] the logger calls so far. *)
Record world := mkWorld {
  usb_in : bytes;
  usb_out : list (origin * bytes);
  log : list (level * message)
}.

Definition M (A : Type) : Type := world -> result A * world.

Definition ret {A} (a : A) : M A := fun w => (Ok a, w).

Definition raise {A} (e : exn) : M A := fun w => (Raise e, w).

Definition out_of_fuel {A} : M A := fun w => (OutOfFuel, w).

Definition bind {A B} (c : M A) (k : A -> M B) : M B :=
  fun w =>
    match c w with
    | (Ok a, w') => k a w'
    | (Raise e, w') => (Raise e, w')
    | (OutOfFuel, w') => (OutOfFuel, w')
    end.

Declare Scope dbi_scope.
Delimit Scope dbi_scope with dbi.
Notation "x <- c ;; k" := (bind c (fun x => k))
  (at level 61, c at next level, right associativity) : dbi_scope.
Notation "c ;; k" := (bind c (fun _ => k))
  (at level 61, right associativity) : dbi_scope.
Open Scope dbi_scope.

(** A value that is there, or the exception raised when it is not. *)
Definition lift {A} (e : exn) (o : option A) : M A :=
  match o with
  | Some a => ret a
  | None => raise e
  end.

Definition lift_result {A} (r : result A) : M A := fun w => (r, w).

(** [UsbContext.read(data_size)]: the Transport hands over exactly
    [data_size] bytes or fails; no bytes left on the endpoint is a
    failure. *)
Definition context_read (data_size : Z) : M bytes :=
  fun w =>
    let n := Z.to_nat data_size in
    if (n <=? List.length (usb_in w))%nat
    then (Ok (firstn n (usb_in w)),
          mkWorld (skipn n (usb_in w)) (usb_out w) (log w))
    else (Raise USBError, w).

(** [UsbContext.write(data)] *)
Definition context_write (o : origin) (data : bytes) : M unit :=
  fun w => (Ok tt, mkWorld (usb_in w) (usb_out w ++ [(o, data)]) (log w)).

Definition log_call (l : level) (m : message) : M unit :=
  fun w => (Ok tt, mkWorld (usb_in w) (usb_out w) (log w ++ [(l, m)])).

(** [for x in l: body], over the state [s] the body updates. *)
Fixpoint for_each {A S} (l : list A) (body : A -> S -> M S) (s : S) : M S :=
  match l with
  | [] => ret s
  | x :: l' => s' <- body x s ;; for_each l' body s'
  end.

(** ** Files *)

(** A file object opened with ['rb']: the bytes of the file and the
    position of the next read. *)
Record file := mkFile { content : bytes; pos : Z }.

(** [f.seek(offset)] for [offset >= 0]: allowed beyond the end of the file,
    refused for an offset of [2^63] or more. *)
Definition file_seek (f : file) (offset : Z) : M file :=
  if offset <? 2 ^ 63 then ret (mkFile (content f) offset)
  else raise ValueError.

(** [f.read(size)] for [size > 0]: the next [size] bytes, or what is left
    of the file when that is less (nothing at or beyond the end). *)
Definition file_read (f : file) (size : Z) : bytes * file :=
  let buf := firstn (Z.to_nat size) (skipn (Z.to_nat (pos f)) (content f)) in
  (buf, mkFile (content f) (pos f + Z.of_nat (List.length buf))).

(** ** The directory tree below [work_dir_path] *)

(** A directory as [os.walk] reports it: its path, its sub-directories and
    its file names, both in the order the listing gives them. *)
#[warnings="-register-all"]
Inductive dirtree :=
| Dir (dirName : str) (subdirs : list dirtree) (fileList : list str).

(** [os.walk(top)], top-down: [(dirName, fileList)] of the directory
    itself, then of each sub-directory in turn. The [subdirList] component
    is left out, the loop does not use it. *)
Fixpoint os_walk (top : dirtree) : list (str * list str) :=
  match top with
  | Dir dirName subdirs fileList =>
    (dirName, fileList) :: flat_map os_walk subdirs
  end.

(** ** The handlers and the command loop *)

(** The request a FILE_RANGE payload carries (lines 69 to 72). *)
Record RangeRequest := mkRangeRequest {
  range_size : Z;
  range_offset : Z;
  nsp_name_len : Z;
  nsp_name : str
}.

(** Lines 69 to 72 of [process_file_range_command]. *)
Definition parse_file_range (file_range_header : bytes) : result RangeRequest :=
  match Struct.unpack_I (slice 0 4 file_range_header) with
  | None => Raise StructError
  | Some range_size =>
    match Struct.unpack_Q (slice 4 12 file_range_header) with
    | None => Raise StructError
    | Some range_offset =>
      match Struct.unpack_I (slice 12 16 file_range_header) with
      | None => Raise StructError
      | Some nsp_name_len =>
        match Utf8.decode (slice_from 16 file_range_header) with
        | None => Raise UnicodeDecodeError
        | Some nsp_name =>
          Ok (mkRangeRequest range_size range_offset nsp_name_len nsp_name)
        end
      end
    end
  end.

(** Lines 73 to 75: the name looked up in the cache of the last LIST. *)
Definition resolve_name (cache : option OrderedDict.t) (nsp_name : str) : str :=
  match cache with
  | Some c =>
    if OrderedDict.len c >? 0 then
      if OrderedDict.contains c nsp_name then
        match OrderedDict.get c nsp_name with
        | Some path => path
        | None => nsp_name
        end
      else nsp_name
    else nsp_name
  | None => nsp_name
  end.

(** The ACK read back and unpacked for the debug log (lines 82 to 87 and
    133 to 138). *)
Definition read_ack : M unit :=
  ack <- context_read 16 ;;
  cmd_type <- lift StructError (Struct.unpack_I (slice 4 8 ack)) ;;
  cmd_id <- lift StructError (Struct.unpack_I (slice 8 12 ack)) ;;
  data_size <- lift StructError (Struct.unpack_I (slice 12 16 ack)) ;;
  log_call DEBUG (MsgCmd cmd_type cmd_id data_size) ;;
  log_call DEBUG MsgAck.

(** The [while remaining_size > 0] loop of lines 94 to 105. Every turn
    takes at least one off [remaining_size], so [fuel] turns are enough when
    [fuel] is at least [remaining_size]. *)
Fixpoint stream_range (fuel : nat) (f : file) (curr_off remaining_size : Z)
  : M unit :=
  if remaining_size >? 0 then
    match fuel with
    | O => out_of_fuel
    | S fuel' =>
      let chunk_size := Z.min BUFFER_SEGMENT_DATA_SIZE remaining_size in
      let (buf, f') := file_read f chunk_size in
      match buf with
      | [] => log_call WARNING MsgUnexpectedEOF
      | _ :: _ =>
        context_write FileData buf ;;
        stream_range fuel' f' (curr_off + chunk_size)
                     (remaining_size - chunk_size)
      end
    end
  else ret tt.

(** Lines 90 to 105, on the file just opened: the seek and the loop. *)
Definition send_file_range (data : bytes) (range_offset range_size : Z)
  : M unit :=
  f <- file_seek (mkFile data 0) range_offset ;;
  stream_range (Z.to_nat range_size) f 0 range_size.

(** [filename.lower().endswith('.nsp') or
     filename.lower().endswith('nsz') or
     filename.lower().endswith('.xci')] (line 121). *)
Definition is_rom (filename : str) : bool :=
  endswith (lower filename) (lit ".nsp")
  || endswith (lower filename) (lit "nsz")
  || endswith (lower filename) (lit ".xci").

Definition NEWLINE : str := [10].

(** Lines 125 to 127: every key followed by a newline. *)
Definition join_names (names : list str) : str :=
  fold_left (fun nsp_path_list rom => nsp_path_list ++ rom ++ NEWLINE)
            names [].

Section Dbi.

(** [str(Path(dirName).joinpath(filename))] *)
Variable joinpath : str -> str -> str.

(** [open(name, 'rb')]: the bytes of the file, [None] when it cannot be
    opened. *)
Variable open_rb : str -> option bytes.

Definition process_file_range_command
           (data_size : Z) (cache : option OrderedDict.t) : M unit :=
  log_call INFO MsgFileRange ;;
  ack_bytes <- lift StructError
    (encode_header CommandType.ACK CommandID.FILE_RANGE data_size) ;;
  context_write FileRangeAck ack_bytes ;;
  file_range_header <- context_read data_size ;;
  req <- lift_result (parse_file_range file_range_header) ;;
  let nsp_name := resolve_name cache (nsp_name req) in
  log_call INFO (MsgRange (range_size req) (range_offset req)
                          (nsp_name_len req) nsp_name) ;;
  response_bytes <- lift StructError
    (encode_header CommandType.RESPONSE CommandID.FILE_RANGE
                   (range_size req)) ;;
  context_write FileRangeResponse response_bytes ;;
  read_ack ;;
  data <- lift OSError (open_rb nsp_name) ;;
  send_file_range data (range_offset req) (range_size req).

(** [sys.exit(0)] raises [SystemExit], which nothing catches. *)
Definition process_exit_command : M unit :=
  log_call INFO MsgExit ;;
  response_bytes <- lift StructError
    (encode_header CommandType.RESPONSE CommandID.EXIT 0) ;;
  context_write ExitResponse response_bytes ;;
  raise (SystemExit 0).

(** The body of the inner loop (lines 121 to 123). *)
Definition collect_file (dirName filename : str)
           (cached_roms : OrderedDict.t) : M OrderedDict.t :=
  if is_rom filename then
    log_call DEBUG (MsgFile filename) ;;
    ret (OrderedDict.set cached_roms filename (joinpath dirName filename))
  else ret cached_roms.

(** The body of the outer loop (lines 119 to 123). *)
Definition collect_directory (entry : str * list str)
           (cached_roms : OrderedDict.t) : M OrderedDict.t :=
  let (dirName, fileList) := entry in
  log_call DEBUG (MsgFoundDirectory dirName) ;;
  for_each fileList (collect_file dirName) cached_roms.

(** Lines 117 to 123. *)
Definition collect_roms (work_dir_path : dirtree) : M OrderedDict.t :=
  for_each (os_walk work_dir_path) collect_directory OrderedDict.empty.

(** Lines 125 to 141: the names sent and the cache returned. *)
Definition send_rom_list (cached_roms : OrderedDict.t) : M OrderedDict.t :=
  let nsp_path_list := join_names (OrderedDict.keys cached_roms) in
  nsp_path_list_bytes <- lift UnicodeEncodeError
    (Utf8.encode nsp_path_list) ;;
  let nsp_path_list_len := Z.of_nat (List.length nsp_path_list_bytes) in
  response_bytes <- lift StructError
    (encode_header CommandType.RESPONSE CommandID.LIST nsp_path_list_len) ;;
  context_write ListResponse response_bytes ;;
  read_ack ;;
  context_write ListPayload nsp_path_list_bytes ;;
  ret cached_roms.

Definition process_list_command (work_dir_path : dirtree)
  : M OrderedDict.t :=
  log_call INFO MsgGetList ;;
  cached_roms <- collect_roms work_dir_path ;;
  send_rom_list cached_roms.

(** The [while True] loop of [poll_commands]; one unit of [fuel] per
    turn. *)
Fixpoint poll_loop (fuel : nat) (work_dir_path : dirtree)
         (cmd_cache : option OrderedDict.t) : M unit :=
  match fuel with
  | O => out_of_fuel
  | S fuel' =>
    cmd_header <- context_read 16 ;;
    match decode_header cmd_header with
    | NotAHeader => poll_loop fuel' work_dir_path cmd_cache
    | DecodeError => raise StructError
    | Header cmd_type cmd_id data_size =>
      log_call DEBUG (MsgCmd cmd_type cmd_id data_size) ;;
      if cmd_id =? CommandID.EXIT then
        process_exit_command ;;
        poll_loop fuel' work_dir_path cmd_cache
      else if cmd_id =? CommandID.LIST then
        cmd_cache' <- process_list_command work_dir_path ;;
        poll_loop fuel' work_dir_path (Some cmd_cache')
      else if cmd_id =? CommandID.FILE_RANGE then
        process_file_range_command data_size cmd_cache ;;
        poll_loop fuel' work_dir_path cmd_cache
      else
        log_call WARNING (MsgUnknownCommandId cmd_id) ;;
        process_exit_command ;;
        poll_loop fuel' work_dir_path cmd_cache
    end
  end.

Definition poll_commands (fuel : nat) (work_dir_path : dirtree) : M unit :=
  log_call INFO MsgEnteringCommandLoop ;;
  poll_loop fuel work_dir_path None.

End Dbi.

(** The state [poll_commands] starts in, given what the peer will send. *)
Definition initial_world (input : bytes) : world := mkWorld input [] [].

(** ** Vocabulary of the statements *)

(** What one file does to the cache (lines 121 to 123), the log left
    aside. *)
Definition catalog_step (joinpath : str -> str -> str) (dirName : str)
           (cached_roms : OrderedDict.t) (filename : str) : OrderedDict.t :=
  if is_rom filename
  then OrderedDict.set cached_roms filename (joinpath dirName filename)
  else cached_roms.

(** The cache the two loops of lines 117 to 123 build, the log left
    aside. *)
Definition catalog_of (joinpath : str -> str -> str) (work_dir_path : dirtree)
  : OrderedDict.t :=
  fold_left
    (fun cached_roms entry =>
       fold_left (catalog_step joinpath (fst entry)) (snd entry) cached_roms)
    (os_walk work_dir_path) OrderedDict.empty.

(** The files [os.walk] comes across that pass the test of line 121, each
    with the path the loop computes for it, in the order of discovery. *)
Definition discovered (joinpath : str -> str -> str) (work_dir_path : dirtree)
  : list (str * str) :=
  flat_map
    (fun entry =>
       map (fun filename => (filename, joinpath (fst entry) filename))
           (filter is_rom (snd entry)))
    (os_walk work_dir_path).

(** [d[k] = v] for each pair in turn. *)
Definition set_all (pairs : list (str * str)) (d : OrderedDict.t)
  : OrderedDict.t :=
  fold_left (fun d kv => OrderedDict.set d (fst kv) (snd kv)) pairs d.

(** The first occurrence of each element that is not in [seen], in
    order. *)
Fixpoint first_occurrences (seen names : list str) : list str :=
  match names with
  | [] => []
  | n :: names' =>
    if existsb (str_eqb n) seen then first_occurrences seen names'
    else n :: first_occurrences (seen ++ [n]) names'
  end.

(** The value of the last pair with the key [k]. *)
Fixpoint last_path (k : str) (pairs : list (str * str)) : option str :=
  match pairs with
  | [] => None
  | (k', v) :: pairs' =>
    match last_path k pairs' with
    | Some v' => Some v'
    | None => if str_eqb k' k then Some v else None
    end
  end.

(** The test of line 121 as the specification words it: the lowercased
    name ends in one of [.nsp], [.nsz], [.xci]. *)
Definition has_rom_extension (filename : str) : bool :=
  endswith (lower filename) (lit ".nsp")
  || endswith (lower filename) (lit ".nsz")
  || endswith (lower filename) (lit ".xci").

(** The blocks of file data, as [context.write] calls of line 103. *)
Definition file_data (chunks : list bytes) : list (origin * bytes) :=
  map (fun chunk => (FileData, chunk)) chunks.

(** The log entry of line 100, when [warned]. *)
Definition eof_warning (warned : bool) : list (level * message) :=
  if warned then [(WARNING, MsgUnexpectedEOF)] else [].

(** A block of file data has between 1 byte and 1 MiB. *)
Definition chunk_sized (chunk : bytes) : Prop :=
  0 < Z.of_nat (List.length chunk) <= BUFFER_SEGMENT_DATA_SIZE.

(** The loop comes to a read at the end of the file: after [k] full
    requests there is still something to send and nothing left to read. *)
Definition reads_at_eof (available remaining_size : Z) : Prop :=
  exists k, 0 <= k
            /\ k * BUFFER_SEGMENT_DATA_SIZE < remaining_size
            /\ available <= k * BUFFER_SEGMENT_DATA_SIZE.

(** A block that is framed as a header: 16 bytes, the magic first. *)
Definition well_framed (b : bytes) : Prop :=
  List.length b = 16%nat /\ firstn 4 b = MAGIC.

(** Every header written so far is framed as one. *)
Definition headers_well_framed (w : world) : Prop :=
  forall o b, In (o, b) (usb_out w) -> is_header_write o = true ->
              well_framed b.

(** A computation that keeps [headers_well_framed]. *)
Definition preserves_framing {A} (c : M A) : Prop :=
  forall w, headers_well_framed w -> headers_well_framed (snd (c w)).

(** ** Data of the examples *)

(** The RESPONSE header of EXIT with size 0, byte by byte. *)
Definition EXIT_RESPONSE : bytes :=
  MAGIC ++ [x01; x00; x00; x00] ++ [x00; x00; x00; x00]
        ++ [x00; x00; x00; x00].

(** [Path.joinpath] for a directory path that does not end in a separator
    and a plain file name, as used in the examples. *)
Definition posix_joinpath (dirName filename : str) : str :=
  dirName ++ lit "/" ++ filename.

(** A FILE_RANGE payload: 4 bytes from offset 2 of "a.nsp", with a name
    length field of 0. *)
Definition example_payload : bytes :=
  [x04; x00; x00; x00] ++ [x02; x00; x00; x00; x00; x00; x00; x00]
  ++ [x00; x00; x00; x00] ++ [x61; x2e; x6e; x73; x70].

(** A file of 4 bytes named [f], and nothing else to open. *)
Definition four_byte_file (name : str) : option bytes :=
  if str_eqb name (lit "f") then Some [x01; x02; x03; x04] else None.

(** What the peer sends for 10 bytes from offset 0 of [f]: the request
    payload (17 bytes), then its ACK of the RESPONSE header. *)
Definition short_file_request : bytes :=
  ([x0a; x00; x00; x00] ++ [x00; x00; x00; x00; x00; x00; x00; x00]
   ++ [x01; x00; x00; x00] ++ [x66])
  ++ (MAGIC ++ [x02; x00; x00; x00] ++ [x02; x00; x00; x00]
            ++ [x0a; x00; x00; x00]).

(** The scenario of the specification: [a.nsp] of 10 bytes and [b.xci]
    of 5 bytes in the directory [/roms]. *)
Definition two_roms : dirtree :=
  Dir (lit "/roms") [] [lit "a.nsp"; lit "b.xci"].

Definition two_roms_files (name : str) : option bytes :=
  if str_eqb name (lit "/roms/a.nsp")
  then Some [x00; x01; x02; x03; x04; x05; x06; x07; x08; x09]
  else if str_eqb name (lit "/roms/b.xci")
  then Some [x0a; x0b; x0c; x0d; x0e]
  else None.

(** What the peer sends in that scenario: LIST and the ACK of its
    RESPONSE; FILE_RANGE with 21 bytes of payload (4 bytes from offset 2 of
    [a.nsp]) and the ACK of its RESPONSE; EXIT. *)
Definition two_roms_session : bytes :=
  (MAGIC ++ [x00; x00; x00; x00] ++ [x03; x00; x00; x00]
         ++ [x00; x00; x00; x00])
  ++ (MAGIC ++ [x02; x00; x00; x00] ++ [x03; x00; x00; x00]
            ++ [x0c; x00; x00; x00])
  ++ (MAGIC ++ [x00; x00; x00; x00] ++ [x02; x00; x00; x00]
            ++ [x15; x00; x00; x00])
  ++ ([x04; x00; x00; x00] ++ [x02; x00; x00; x00; x00; x00; x00; x00]
      ++ [x05; x00; x00; x00] ++ [x61; x2e; x6e; x73; x70])
  ++ (MAGIC ++ [x02; x00; x00; x00] ++ [x02; x00; x00; x00]
            ++ [x04; x00; x00; x00])
  ++ (MAGIC ++ [x00; x00; x00; x00] ++ [x00; x00; x00; x00]
            ++ [x00; x00; x00; x00]).


(** ** Vocabulary of the further properties *)

(** The 16 bytes of a header with the given fields. *)
Definition header_bytes (cmd_type cmd_id data_size : Z) : bytes :=
  MAGIC ++ Struct.to_le 4 cmd_type ++ Struct.to_le 4 cmd_id
        ++ Struct.to_le 4 data_size.

(** [w'] is [w] some steps on: input has been taken from the front, blocks
    and log records have been added at the end. *)
Definition later (w w' : world) : Prop :=
  (exists used, usb_in w = used ++ usb_in w')
  /\ (exists written, usb_out w' = usb_out w ++ written)
  /\ (exists logged, log w' = log w ++ logged).

(** A computation that only moves the world on. *)
Definition advances {A} (c : M A) : Prop :=
  forall w, later w (snd (c w)).

(** A computation whose loops get all the turns they need. *)
Definition finishes {A} (c : M A) : Prop :=
  forall w, fst (c w) <> OutOfFuel.

(** A computation that does not return: it raises, or is still running. *)
Definition never_returns {A} (c : M A) : Prop :=
  forall w a, fst (c w) <> Ok a.

(** Two worlds with the same endpoints, whatever their logs. *)
Definition same_io (w1 w2 : world) : Prop :=
  usb_in w1 = usb_in w2 /\ usb_out w1 = usb_out w2.

(** A computation on which the log has no influence. *)
Definition log_blind {A} (c : M A) : Prop :=
  forall w1 w2, same_io w1 w2 ->
                fst (c w1) = fst (c w2) /\ same_io (snd (c w1)) (snd (c w2)).

(** A block of exactly 1 MiB. *)
Definition full_block (chunk : bytes) : Prop :=
  Z.of_nat (List.length chunk) = BUFFER_SEGMENT_DATA_SIZE.

(** ** Start-up: [UsbContext], [connect_to_switch] and [main] *)

(** What [usb.core.find] and the configuration calls after it come to, for
    one try: no device; a device on which [reset], [set_configuration] or
    [get_active_configuration] fails; or the endpoint addresses
    ([bEndpointAddress]) of interface (0, 0), in descriptor order. *)
Inductive probe :=
| NoDevice
| DeviceFails
| Endpoints (addresses : list Z).

(** The exceptions of the start-up code. *)
Inductive startup_exn :=
| ConnectionError        (* line 38 *)
| LookupErrorOutput      (* line 54 *)
| LookupErrorInput       (* line 56 *)
| UsbCoreError           (* raised by the library on a device that fails *)
| NotADirectoryError.    (* line 201 *)

(** How a piece of the start-up code ends: with a value, with an
    exception, or still in the [while True] of [connect_to_switch] when the
    tries looked at are used up. *)
Inductive started (A : Type) :=
| Started (a : A)
| Stopped (e : startup_exn)
| StillWaiting.
Arguments Started {A} a.
Arguments Stopped {A} e.
Arguments StillWaiting {A}.

Definition ENDPOINT_OUT : Z := 0x00.
Definition ENDPOINT_IN : Z := 0x80.

(** [usb.util.endpoint_direction(address)] *)
Definition endpoint_direction (address : Z) : Z := Z.land address 0x80.

(** The two endpoints a context keeps, by address. *)
Record UsbContext := mkUsbContext { _out : Z; _in : Z }.

(** [UsbContext.__init__] (lines 35 to 56); [find_descriptor] gives the
    first endpoint its [custom_match] accepts. *)
Definition UsbContext_init (dev : probe) : started UsbContext :=
  match dev with
  | NoDevice => Stopped ConnectionError
  | DeviceFails => Stopped UsbCoreError
  | Endpoints addresses =>
    let out_ep :=
      find (fun ep => endpoint_direction ep =? ENDPOINT_OUT) addresses in
    let in_ep :=
      find (fun ep => endpoint_direction ep =? ENDPOINT_IN) addresses in
    match out_ep with
    | None => Stopped LookupErrorOutput
    | Some o =>
      match in_ep with
      | None => Stopped LookupErrorInput
      | Some i => Started (mkUsbContext o i)
      end
    end
  end.

(** [connect_to_switch] (lines 170 to 178) over the tries to come, one
    [probe] each. Only [ConnectionError] is caught; every time it is,
    'Waiting for switch' is logged and a second is slept, which the number
    returned counts. *)
Fixpoint connect_to_switch (tries : list probe) : started UsbContext * nat :=
  match tries with
  | [] => (StillWaiting, 0%nat)
  | dev :: tries' =>
    match UsbContext_init dev with
    | Stopped ConnectionError =>
      let (outcome, waits) := connect_to_switch tries' in (outcome, S waits)
    | outcome => (outcome, 0%nat)
    end
  end.

(** How [main] ends. *)
Inductive main_outcome :=
| StartupFailed (e : startup_exn)
| NoSwitchYet
| Session (waits : nat) (end_of_loop : result unit) (w : world).

(** [main] (lines 195 to 206), from the parsed arguments on: [rom_dir] is
    the tree at [args.rom_dir], [None] when that path is no directory.
    [args.debug] only sets the level the logger prints from; the log of the
    model holds every call. The bytes the connected switch will send are
    [input]. *)
Definition main (joinpath : str -> str -> str)
           (open_rb : str -> option bytes)
           (rom_dir : option dirtree) (tries : list probe)
           (fuel : nat) (input : bytes) : main_outcome :=
  match rom_dir with
  | None => StartupFailed NotADirectoryError
  | Some work_dir_path =>
    match connect_to_switch tries with
    | (Started _, waits) =>
      let (end_of_loop, w) :=
        poll_commands joinpath open_rb fuel work_dir_path
                      (initial_world input) in
      Session waits end_of_loop w
    | (Stopped e, _) => StartupFailed e
    | (StillWaiting, _) => NoSwitchYet
    end
  end.
(** * Properties *)

(** ** Arithmetic of the little-endian encoding *)

Lemma byte_val_range (b : byte) : 0 <= byte_val b < 256.
Proof.
  unfold byte_val. pose proof (Byte.to_N_bounded b) as H.
  split; [apply N2Z.is_nonneg|]. lia.
Qed.

Lemma byte_val_of_Z (n : Z) : byte_val (byte_of_Z n) = n mod 256.
Proof.
  unfold byte_val, byte_of_Z.
  assert (Hr : 0 <= n mod 256 < 256) by (apply Z.mod_pos_bound; lia).
  destruct (Byte.of_N (Z.to_N (n mod 256))) as [b|] eqn:E.
  - apply Byte.to_of_N in E. rewrite E. rewrite Z2N.id; lia.
  - apply Byte.of_N_None_iff in E. lia.
Qed.

Lemma byte_of_Z_val (b : byte) : byte_of_Z (byte_val b) = b.
Proof.
  unfold byte_of_Z, byte_val.
  pose proof (Byte.to_N_bounded b) as Hb.
  rewrite Z.mod_small by lia.
  rewrite N2Z.id, Byte.of_to_N. reflexivity.
Qed.

Lemma to_le_length (n : nat) (v : Z) : List.length (Struct.to_le n v) = n.
Proof.
  revert v. induction n as [|n IH]; intros v; simpl; [reflexivity|].
  now rewrite IH.
Qed.

Lemma of_le_to_le (n : nat) (v : Z) :
  Struct.of_le (Struct.to_le n v) = v mod 256 ^ Z.of_nat n.
Proof.
  revert v. induction n as [|n IH]; intros v.
  - simpl. now rewrite Z.mod_1_r.
  - cbn [Struct.to_le Struct.of_le]. rewrite byte_val_of_Z, IH.
    rewrite Nat2Z.inj_succ, Z.pow_succ_r by lia.
    assert (0 < 256 ^ Z.of_nat n) by (apply Z.pow_pos_nonneg; lia).
    rewrite Z.rem_mul_r by lia. lia.
Qed.

Lemma of_le_range (b : bytes) :
  0 <= Struct.of_le b < 256 ^ Z.of_nat (List.length b).
Proof.
  induction b as [|x b IH].
  - simpl. lia.
  - cbn [Struct.of_le List.length]. pose proof (byte_val_range x).
    rewrite Nat2Z.inj_succ, Z.pow_succ_r by lia. lia.
Qed.

Lemma to_le_of_le (b : bytes) :
  Struct.to_le (List.length b) (Struct.of_le b) = b.
Proof.
  induction b as [|x b IH]; [reflexivity|].
  cbn [Struct.of_le List.length Struct.to_le].
  pose proof (byte_val_range x) as Hx.
  f_equal.
  - replace (byte_val x + 256 * Struct.of_le b)
      with (byte_val x + Struct.of_le b * 256) by lia.
    unfold byte_of_Z. rewrite Z.mod_add by lia.
    exact (byte_of_Z_val x).
  - replace ((byte_val x + 256 * Struct.of_le b) / 256) with (Struct.of_le b);
      [exact IH|].
    rewrite (Z.mul_comm 256), Z.div_add by lia.
    rewrite Z.div_small by lia. lia.
Qed.

Lemma pack_I_some (v : Z) :
  0 <= v <= Struct.U32_MAX -> Struct.pack_I v = Some (Struct.to_le 4 v).
Proof.
  intros H. unfold Struct.pack_I.
  destruct (0 <=? v) eqn:E1; destruct (v <=? Struct.U32_MAX) eqn:E2;
    simpl; try reflexivity; lia.
Qed.

Lemma pack_I_inv (v : Z) (b : bytes) :
  Struct.pack_I v = Some b ->
  0 <= v <= Struct.U32_MAX /\ b = Struct.to_le 4 v.
Proof.
  unfold Struct.pack_I.
  destruct (0 <=? v) eqn:E1; destruct (v <=? Struct.U32_MAX) eqn:E2;
    simpl; intros H; inversion H; subst. split; [lia | reflexivity].
Qed.

Lemma unpack_pack_I (v : Z) :
  0 <= v <= Struct.U32_MAX ->
  Struct.unpack_I (Struct.to_le 4 v) = Some v.
Proof.
  intros H. unfold Struct.unpack_I. rewrite to_le_length. simpl Nat.eqb.
  cbv iota. rewrite of_le_to_le. f_equal.
  apply Z.mod_small. unfold Struct.U32_MAX in H. simpl. lia.
Qed.

Lemma unpack_I_4 (a : bytes) :
  List.length a = 4%nat -> Struct.unpack_I a = Some (Struct.of_le a).
Proof. intros H. unfold Struct.unpack_I. now rewrite H. Qed.

(** ** Header framing *)

Lemma startswith_firstn (b prefix : bytes) :
  startswith b prefix = true <-> firstn (List.length prefix) b = prefix.
Proof.
  revert b. induction prefix as [|p prefix IH]; intros b.
  - simpl. tauto.
  - destruct b as [|x b]; simpl.
    + split; discriminate.
    + rewrite andb_true_iff, IH. split.
      * intros [Hx Hb]. apply Byte.byte_dec_bl in Hx. now subst; f_equal.
      * intros H. injection H as Hx Hb. split; [|exact Hb].
        now apply Byte.byte_dec_lb.
Qed.

Lemma decode_header_fields (a b c : bytes) :
  List.length a = 4%nat -> List.length b = 4%nat -> List.length c = 4%nat ->
  decode_header (MAGIC ++ a ++ b ++ c)
  = Header (Struct.of_le a) (Struct.of_le b) (Struct.of_le c).
Proof.
  intros Ha Hb Hc.
  destruct a as [|a0 [|a1 [|a2 [|a3 [|]]]]]; try discriminate.
  destruct b as [|b0 [|b1 [|b2 [|b3 [|]]]]]; try discriminate.
  destruct c as [|c0 [|c1 [|c2 [|c3 [|]]]]]; try discriminate.
  reflexivity.
Qed.

Lemma encode_header_some (t i s : Z) :
  0 <= t <= Struct.U32_MAX -> 0 <= i <= Struct.U32_MAX ->
  0 <= s <= Struct.U32_MAX ->
  encode_header t i s
  = Some (MAGIC ++ Struct.to_le 4 t ++ Struct.to_le 4 i ++ Struct.to_le 4 s).
Proof.
  intros Ht Hi Hs. unfold encode_header, Struct.pack_4sIII.
  now rewrite !pack_I_some.
Qed.

Lemma encode_header_inv (t i s : Z) (h : bytes) :
  encode_header t i s = Some h ->
  (0 <= t <= Struct.U32_MAX /\ 0 <= i <= Struct.U32_MAX
   /\ 0 <= s <= Struct.U32_MAX)
  /\ h = MAGIC ++ Struct.to_le 4 t ++ Struct.to_le 4 i ++ Struct.to_le 4 s.
Proof.
  unfold encode_header, Struct.pack_4sIII.
  destruct (Struct.pack_I t) as [bt|] eqn:Et; [|discriminate].
  destruct (Struct.pack_I i) as [bi|] eqn:Ei; [|discriminate].
  destruct (Struct.pack_I s) as [bs|] eqn:Es; [|discriminate].
  apply pack_I_inv in Et, Ei, Es.
  destruct Et as [Ht ->], Ei as [Hi ->], Es as [Hs ->].
  intros H. inversion H. auto.
Qed.

Lemma encode_header_none (t i s : Z) :
  ~ (0 <= s <= Struct.U32_MAX) -> encode_header t i s = None.
Proof.
  intros Hs. destruct (encode_header t i s) as [h|] eqn:E; [|reflexivity].
  apply encode_header_inv in E. tauto.
Qed.

Lemma header_shape (t i s : Z) :
  List.length (MAGIC ++ Struct.to_le 4 t ++ Struct.to_le 4 i
               ++ Struct.to_le 4 s) = 16%nat
  /\ firstn 4 (MAGIC ++ Struct.to_le 4 t ++ Struct.to_le 4 i
               ++ Struct.to_le 4 s) = MAGIC.
Proof. split; reflexivity. Qed.

Lemma decode_encoded (t i s : Z) :
  0 <= t <= Struct.U32_MAX -> 0 <= i <= Struct.U32_MAX ->
  0 <= s <= Struct.U32_MAX ->
  decode_header (MAGIC ++ Struct.to_le 4 t ++ Struct.to_le 4 i
                 ++ Struct.to_le 4 s) = Header t i s.
Proof.
  intros Ht Hi Hs.
  rewrite decode_header_fields by apply to_le_length.
  rewrite !of_le_to_le.
  unfold Struct.U32_MAX in *.
  change (256 ^ Z.of_nat 4) with 4294967296.
  now rewrite !Z.mod_small by lia.
Qed.

(** C3. A header packed from a command type, a command id and a size, each
    an unsigned 32-bit value, is 16 bytes long, and the fields the command
    loop unpacks from it are the three values packed. *)
Theorem header_round_trip (t i s : Z) :
  0 <= t <= Struct.U32_MAX ->
  0 <= i <= Struct.U32_MAX ->
  0 <= s <= Struct.U32_MAX ->
  exists h,
    encode_header t i s = Some h
    /\ List.length h = 16%nat
    /\ firstn 4 h = MAGIC
    /\ decode_header h = Header t i s.
Proof.
  intros Ht Hi Hs.
  exists (MAGIC ++ Struct.to_le 4 t ++ Struct.to_le 4 i ++ Struct.to_le 4 s).
  split; [now apply encode_header_some|].
  split; [apply header_shape|].
  split; [apply header_shape|].
  now apply decode_encoded.
Qed.

Lemma header_round_trip_witness :
  exists h,
    encode_header CommandType.RESPONSE CommandID.LIST 12 = Some h
    /\ List.length h = 16%nat
    /\ firstn 4 h = MAGIC
    /\ decode_header h = Header CommandType.RESPONSE CommandID.LIST 12.
Proof.
  apply (header_round_trip CommandType.RESPONSE CommandID.LIST 12);
    unfold Struct.U32_MAX, CommandType.RESPONSE, CommandID.LIST; lia.
Defined.

(** ** Running the monad *)

Lemma context_read_exact (n : Z) (h rest : bytes) out lg :
  List.length h = Z.to_nat n ->
  context_read n (mkWorld (h ++ rest) out lg) = (Ok h, mkWorld rest out lg).
Proof.
  intros H. unfold context_read. cbn [usb_in usb_out log].
  rewrite <- H, length_app.
  replace (List.length h <=? List.length h + List.length rest)%nat with true
    by (symmetry; apply Nat.leb_le; lia).
  rewrite firstn_app, Nat.sub_diag, firstn_all, firstn_O, app_nil_r.
  rewrite skipn_app, Nat.sub_diag, skipn_all. reflexivity.
Qed.

Lemma context_read_short (n : Z) (w : world) :
  (List.length (usb_in w) < Z.to_nat n)%nat ->
  context_read n w = (Raise USBError, w).
Proof.
  intros H. unfold context_read.
  replace (Z.to_nat n <=? List.length (usb_in w))%nat with false
    by (symmetry; apply Nat.leb_gt; lia).
  reflexivity.
Qed.

Lemma split_input (n : nat) (l : bytes) :
  (n <= List.length l)%nat ->
  exists h rest, l = h ++ rest /\ List.length h = n.
Proof.
  intros H. exists (firstn n l), (skipn n l).
  split; [symmetry; apply firstn_skipn|]. rewrite length_firstn. lia.
Qed.

Lemma exit_header_bytes :
  encode_header CommandType.RESPONSE CommandID.EXIT 0 = Some EXIT_RESPONSE.
Proof. reflexivity. Qed.

Lemma process_exit_command_run (w : world) :
  process_exit_command w
  = (Raise (SystemExit 0),
     mkWorld (usb_in w) (usb_out w ++ [(ExitResponse, EXIT_RESPONSE)])
             (log w ++ [(INFO, MsgExit)])).
Proof. reflexivity. Qed.

(** ** The command loop *)

(** C7. Sixteen bytes that do not start with the magic are not a header:
    the decoding reports so without raising, and the command loop drops
    exactly these bytes and goes on with the next read, the cache, what was
    written and the log being as before. *)
Theorem non_magic_header_is_skipped
        (joinpath : str -> str -> str) (open_rb : str -> option bytes)
        (fuel : nat) (work_dir_path : dirtree)
        (cmd_cache : option OrderedDict.t)
        (h rest : bytes) out lg :
  List.length h = 16%nat ->
  firstn 4 h <> MAGIC ->
  decode_header h = NotAHeader
  /\ poll_loop joinpath open_rb (S fuel) work_dir_path cmd_cache
               (mkWorld (h ++ rest) out lg)
     = poll_loop joinpath open_rb fuel work_dir_path cmd_cache
                 (mkWorld rest out lg).
Proof.
  intros Hlen Hmagic.
  assert (Hd : decode_header h = NotAHeader).
  { unfold decode_header.
    destruct (startswith h MAGIC) eqn:E; [|reflexivity].
    apply startswith_firstn in E. contradiction. }
  split; [exact Hd|].
  cbn [poll_loop]. unfold bind at 1.
  rewrite (context_read_exact 16 h rest) by exact Hlen.
  now rewrite Hd.
Qed.

Lemma non_magic_header_is_skipped_witness :
  decode_header (repeat x00 16) = NotAHeader
  /\ poll_loop (fun d f => d ++ f) (fun _ => None) 1 (Dir [] [] []) None
               (mkWorld (repeat x00 16 ++ EXIT_RESPONSE) [] [])
     = poll_loop (fun d f => d ++ f) (fun _ => None) 0 (Dir [] [] []) None
                 (mkWorld EXIT_RESPONSE [] []).
Proof.
  apply (non_magic_header_is_skipped (fun d f => d ++ f) (fun _ => None)
           0 (Dir [] [] []) None (repeat x00 16) EXIT_RESPONSE [] []).
  - reflexivity.
  - discriminate.
Defined.

(** C6. A header whose command id is none of EXIT, FILE_RANGE and LIST has
    a warning logged and is then handled by [process_exit_command]: the
    RESPONSE header of EXIT with size 0 is written and the process exits.
    A header with the id EXIT leaves the same blocks written, the same
    input unread and the same outcome. *)
Theorem unknown_command_id_exits
        (joinpath : str -> str -> str) (open_rb : str -> option bytes)
        (fuel : nat) (work_dir_path : dirtree)
        (cmd_cache : option OrderedDict.t)
        (h rest : bytes) out lg (cmd_type cmd_id data_size : Z) :
  List.length h = 16%nat ->
  decode_header h = Header cmd_type cmd_id data_size ->
  cmd_id <> CommandID.EXIT ->
  cmd_id <> CommandID.FILE_RANGE ->
  cmd_id <> CommandID.LIST ->
  poll_loop joinpath open_rb (S fuel) work_dir_path cmd_cache
            (mkWorld (h ++ rest) out lg)
  = (Raise (SystemExit 0),
     mkWorld rest (out ++ [(ExitResponse, EXIT_RESPONSE)])
             (lg ++ [(DEBUG, MsgCmd cmd_type cmd_id data_size);
                     (WARNING, MsgUnknownCommandId cmd_id);
                     (INFO, MsgExit)]))
  /\ decode_header EXIT_RESPONSE
     = Header CommandType.RESPONSE CommandID.EXIT 0
  /\ forall h0 cmd_type0 data_size0,
       List.length h0 = 16%nat ->
       decode_header h0 = Header cmd_type0 CommandID.EXIT data_size0 ->
       poll_loop joinpath open_rb (S fuel) work_dir_path cmd_cache
                 (mkWorld (h0 ++ rest) out lg)
       = (Raise (SystemExit 0),
          mkWorld rest (out ++ [(ExitResponse, EXIT_RESPONSE)])
                  (lg ++ [(DEBUG, MsgCmd cmd_type0 CommandID.EXIT data_size0);
                          (INFO, MsgExit)])).
Proof.
  intros Hlen Hd Hexit Hrange Hlist.
  split; [|split; [reflexivity|]].
  - cbn [poll_loop]. unfold bind at 1.
    rewrite (context_read_exact 16 h rest) by exact Hlen.
    rewrite Hd.
    destruct (cmd_id =? CommandID.EXIT) eqn:E1; [lia|].
    destruct (cmd_id =? CommandID.LIST) eqn:E2; [lia|].
    destruct (cmd_id =? CommandID.FILE_RANGE) eqn:E3; [lia|].
    unfold bind, log_call. cbn [usb_in usb_out log].
    rewrite process_exit_command_run. cbn [usb_in usb_out log].
    now rewrite <- !app_assoc.
  - intros h0 t0 s0 Hlen0 Hd0.
    cbn [poll_loop]. unfold bind at 1.
    rewrite (context_read_exact 16 h0 rest) by exact Hlen0.
    rewrite Hd0. change (CommandID.EXIT =? CommandID.EXIT) with true.
    cbv iota. unfold bind, log_call. cbn [usb_in usb_out log].
    rewrite process_exit_command_run. cbn [usb_in usb_out log].
    now rewrite <- !app_assoc.
Qed.

Lemma unknown_command_id_exits_witness :
  poll_loop (fun d f => d ++ f) (fun _ => None) 1 (Dir [] [] []) None
            (mkWorld ((MAGIC ++ [x00; x00; x00; x00] ++ [x63; x00; x00; x00]
                             ++ [x00; x00; x00; x00]) ++ []) [] [])
  = (Raise (SystemExit 0),
     mkWorld [] ([] ++ [(ExitResponse, EXIT_RESPONSE)])
             ([] ++ [(DEBUG, MsgCmd 0 99 0);
                     (WARNING, MsgUnknownCommandId 99);
                     (INFO, MsgExit)])).
Proof.
  apply (unknown_command_id_exits (fun d f => d ++ f) (fun _ => None)
           0 (Dir [] [] []) None
           (MAGIC ++ [x00; x00; x00; x00] ++ [x63; x00; x00; x00]
                  ++ [x00; x00; x00; x00]) [] [] [] 0 99 0).
  - reflexivity.
  - reflexivity.
  - discriminate.
  - discriminate.
  - discriminate.
Defined.

(** LIST_DEPRECATED has no handler of its own either. *)
Example list_deprecated_exits :
  poll_loop (fun d f => d ++ f) (fun _ => None) 1 (Dir [] [] []) None
            (mkWorld (MAGIC ++ [x00; x00; x00; x00] ++ [x01; x00; x00; x00]
                            ++ [x00; x00; x00; x00]) [] [])
  = (Raise (SystemExit 0),
     mkWorld [] [(ExitResponse, EXIT_RESPONSE)]
             [(DEBUG, MsgCmd 0 CommandID.LIST_DEPRECATED 0);
              (WARNING, MsgUnknownCommandId CommandID.LIST_DEPRECATED);
              (INFO, MsgExit)]).
Proof. reflexivity. Qed.

(** ** Framing of the headers written *)

Lemma preserves_ret {A} (a : A) : preserves_framing (ret a).
Proof. intros w H. exact H. Qed.

Lemma preserves_raise {A} (e : exn) : preserves_framing (@raise A e).
Proof. intros w H. exact H. Qed.

Lemma preserves_out_of_fuel {A} : preserves_framing (@out_of_fuel A).
Proof. intros w H. exact H. Qed.

Lemma preserves_lift {A} (e : exn) (o : option A) :
  preserves_framing (lift e o).
Proof. destruct o; [apply preserves_ret | apply preserves_raise]. Qed.

Lemma preserves_lift_result {A} (r : result A) :
  preserves_framing (lift_result r).
Proof. intros w H. exact H. Qed.

Lemma preserves_log (l : level) (m : message) :
  preserves_framing (log_call l m).
Proof. intros w H. exact H. Qed.

Lemma preserves_read (n : Z) : preserves_framing (context_read n).
Proof.
  intros w H. unfold context_read.
  destruct (Z.to_nat n <=? List.length (usb_in w))%nat; exact H.
Qed.

Lemma preserves_write (o : origin) (b : bytes) :
  (is_header_write o = true -> well_framed b) ->
  preserves_framing (context_write o b).
Proof.
  intros Hb w H o' b' Hin Ho'. cbn in Hin.
  apply in_app_or in Hin. destruct Hin as [Hin | [Heq | []]].
  - exact (H o' b' Hin Ho').
  - inversion Heq; subst. auto.
Qed.

Lemma preserves_bind {A B} (c : M A) (k : A -> M B) :
  preserves_framing c -> (forall a, preserves_framing (k a)) ->
  preserves_framing (bind c k).
Proof.
  intros Hc Hk w H. unfold bind. specialize (Hc w H).
  destruct (c w) as [[a | e |] w']; cbn in Hc |- *.
  - now apply Hk.
  - exact Hc.
  - exact Hc.
Qed.

Lemma encode_header_well_framed (t i s : Z) (h : bytes) :
  encode_header t i s = Some h -> well_framed h.
Proof.
  intros E. apply encode_header_inv in E. destruct E as [_ ->].
  apply header_shape.
Qed.

(** Binding a value that is there: the continuation knows where it came
    from. *)
Lemma preserves_bind_lift {A B} (e : exn) (o : option A) (k : A -> M B) :
  (forall a, o = Some a -> preserves_framing (k a)) ->
  preserves_framing (bind (lift e o) k).
Proof.
  intros Hk. destruct o as [a|].
  - intros w H. exact (Hk a eq_refl w H).
  - intros w H. exact H.
Qed.

Lemma preserves_read_ack : preserves_framing read_ack.
Proof.
  unfold read_ack.
  repeat first
    [ apply preserves_log | apply preserves_read | apply preserves_lift
    | apply preserves_bind; [|intro] ].
Qed.

Lemma preserves_stream_range (fuel : nat) (f : file) (curr_off rem : Z) :
  preserves_framing (stream_range fuel f curr_off rem).
Proof.
  revert f curr_off rem. induction fuel as [|fuel IH]; intros f c rem.
  - cbn [stream_range]. destruct (rem >? 0);
      [apply preserves_out_of_fuel | apply preserves_ret].
  - cbn [stream_range]. destruct (rem >? 0); [|apply preserves_ret].
    destruct (file_read f (Z.min BUFFER_SEGMENT_DATA_SIZE rem)) as [buf f'].
    destruct buf as [|x buf]; [apply preserves_log|].
    apply preserves_bind; [|intros _; apply IH].
    apply preserves_write. discriminate.
Qed.

Lemma preserves_for_each {A S} (l : list A) (body : A -> S -> M S) (s : S) :
  (forall x s', preserves_framing (body x s')) ->
  preserves_framing (for_each l body s).
Proof.
  intros Hbody. revert s. induction l as [|x l IH]; intros s.
  - apply preserves_ret.
  - cbn [for_each]. apply preserves_bind; [apply Hbody | intros s'; apply IH].
Qed.

(** The step [context.write(header)] for a header [encode_header] gave. *)
Ltac header_written Hh :=
  apply preserves_bind;
  [ apply preserves_write; intros _;
    exact (encode_header_well_framed _ _ _ _ Hh)
  | intros _ ].

Section Framing.

Variable joinpath : str -> str -> str.
Variable open_rb : str -> option bytes.

Lemma preserves_process_exit_command :
  preserves_framing process_exit_command.
Proof.
  unfold process_exit_command.
  apply preserves_bind; [apply preserves_log | intros _].
  apply preserves_bind_lift. intros h Hh.
  header_written Hh. apply preserves_raise.
Qed.

Lemma preserves_process_file_range_command data_size cache :
  preserves_framing (process_file_range_command open_rb data_size cache).
Proof.
  unfold process_file_range_command.
  apply preserves_bind; [apply preserves_log | intros _].
  apply preserves_bind_lift. intros h Hh.
  header_written Hh.
  apply preserves_bind; [apply preserves_read | intros frh].
  apply preserves_bind; [apply preserves_lift_result | intros req].
  apply preserves_bind; [apply preserves_log | intros _].
  apply preserves_bind_lift. intros h' Hh'.
  header_written Hh'.
  apply preserves_bind; [apply preserves_read_ack | intros _].
  apply preserves_bind; [apply preserves_lift | intros data].
  unfold send_file_range.
  apply preserves_bind; [|intros f; apply preserves_stream_range].
  unfold file_seek.
  destruct (range_offset req <? 2 ^ 63);
    [apply preserves_ret | apply preserves_raise].
Qed.

Lemma preserves_collect_roms work_dir_path :
  preserves_framing (collect_roms joinpath work_dir_path).
Proof.
  unfold collect_roms. apply preserves_for_each.
  intros [dirName fileList] c. cbn [collect_directory].
  apply preserves_bind; [apply preserves_log | intros _].
  apply preserves_for_each. intros filename c'.
  unfold collect_file. destruct (is_rom filename); [|apply preserves_ret].
  apply preserves_bind; [apply preserves_log | intros _; apply preserves_ret].
Qed.

Lemma preserves_send_rom_list cached_roms :
  preserves_framing (send_rom_list cached_roms).
Proof.
  unfold send_rom_list.
  apply preserves_bind; [apply preserves_lift | intros payload].
  apply preserves_bind_lift. intros h Hh.
  header_written Hh.
  apply preserves_bind; [apply preserves_read_ack | intros _].
  apply preserves_bind; [|intros _; apply preserves_ret].
  apply preserves_write. discriminate.
Qed.

Lemma preserves_process_list_command work_dir_path :
  preserves_framing (process_list_command joinpath work_dir_path).
Proof.
  unfold process_list_command.
  apply preserves_bind; [apply preserves_log | intros _].
  apply preserves_bind; [apply preserves_collect_roms | intros c].
  apply preserves_send_rom_list.
Qed.

Lemma preserves_poll_loop fuel work_dir_path cmd_cache :
  preserves_framing
    (poll_loop joinpath open_rb fuel work_dir_path cmd_cache).
Proof.
  revert cmd_cache. induction fuel as [|fuel IH]; intros cmd_cache.
  - apply preserves_out_of_fuel.
  - cbn [poll_loop].
    apply preserves_bind; [apply preserves_read | intros h].
    destruct (decode_header h) as [| t i s |];
      [apply IH | | apply preserves_raise].
    apply preserves_bind; [apply preserves_log | intros _].
    destruct (i =? CommandID.EXIT).
    { apply preserves_bind;
        [apply preserves_process_exit_command | intros _; apply IH]. }
    destruct (i =? CommandID.LIST).
    { apply preserves_bind;
        [apply preserves_process_list_command | intros c; apply IH]. }
    destruct (i =? CommandID.FILE_RANGE).
    { apply preserves_bind;
        [apply preserves_process_file_range_command | intros _; apply IH]. }
    apply preserves_bind; [apply preserves_log | intros _].
    apply preserves_bind;
      [apply preserves_process_exit_command | intros _; apply IH].
Qed.

End Framing.

(** C10. However long the command loop has run and whatever the peer has
    sent, every header written so far (the ACK and the RESPONSE of
    FILE_RANGE, the RESPONSE of EXIT and the RESPONSE of LIST) is 16 bytes
    long and starts with the magic. *)
Theorem headers_written_are_well_framed
        (joinpath : str -> str -> str) (open_rb : str -> option bytes)
        (fuel : nat) (work_dir_path : dirtree) (input : bytes) :
  headers_well_framed
    (snd (poll_commands joinpath open_rb fuel work_dir_path
                        (initial_world input))).
Proof.
  unfold poll_commands.
  apply (preserves_bind (log_call INFO MsgEnteringCommandLoop)).
  - apply preserves_log.
  - intros _. apply preserves_poll_loop.
  - intros o b [].
Qed.

(** ** Strings and the ordered dictionary *)

Lemma str_eqb_eq (a b : str) : str_eqb a b = true <-> a = b.
Proof.
  revert b. induction a as [|x a IH]; intros [|y b]; simpl;
    try (split; [discriminate | discriminate]); [tauto|].
  rewrite andb_true_iff, Z.eqb_eq, IH. split.
  - intros [-> ->]. reflexivity.
  - intros H. inversion H. auto.
Qed.

Lemma str_eqb_refl (a : str) : str_eqb a a = true.
Proof. now apply str_eqb_eq. Qed.

Lemma str_eqb_neq (a b : str) : str_eqb a b = false <-> a <> b.
Proof.
  rewrite <- str_eqb_eq. destruct (str_eqb a b); split; congruence.
Qed.

Lemma get_some_in (d : OrderedDict.t) (k v : str) :
  OrderedDict.get d k = Some v -> In (k, v) d.
Proof.
  induction d as [|[k' v'] d IH]; simpl; [discriminate|].
  destruct (str_eqb k' k) eqn:E.
  - apply str_eqb_eq in E. intros H. inversion H; subst. now left.
  - intros H. right. now apply IH.
Qed.

Lemma get_none_iff (d : OrderedDict.t) (k : str) :
  OrderedDict.get d k = None <-> ~ In k (OrderedDict.keys d).
Proof.
  induction d as [|[k' v'] d IH]; simpl.
  - tauto.
  - destruct (str_eqb k' k) eqn:E.
    + apply str_eqb_eq in E. split; [discriminate | intros H; tauto].
    + apply str_eqb_neq in E. rewrite IH. tauto.
Qed.

Lemma contains_iff (d : OrderedDict.t) (k : str) :
  OrderedDict.contains d k = true <-> In k (OrderedDict.keys d).
Proof.
  unfold OrderedDict.contains.
  destruct (OrderedDict.get d k) as [v|] eqn:E.
  - split; [intros _ | reflexivity].
    apply get_some_in in E. unfold OrderedDict.keys.
    change k with (fst (k, v)). now apply in_map.
  - split; [discriminate|]. intros H. apply get_none_iff in E. contradiction.
Qed.

(** ** FILE_RANGE: the request and its name *)

(** C5. With a cache that has the requested name among its keys, the name
    is replaced by the path the cache maps it to; without a cache, with an
    empty one, or when the name is not a key, the name is used as it came. *)
Theorem file_range_name_resolution
        (cache : option OrderedDict.t) (name : str) :
  (forall c, cache = Some c -> c <> OrderedDict.empty ->
             In name (OrderedDict.keys c) ->
             exists path, OrderedDict.get c name = Some path
                          /\ In (name, path) c
                          /\ resolve_name cache name = path)
  /\ (cache = None
      \/ cache = Some OrderedDict.empty
      \/ (exists c, cache = Some c /\ ~ In name (OrderedDict.keys c)) ->
      resolve_name cache name = name).
Proof.
  split.
  - intros c -> Hne Hin.
    destruct (OrderedDict.get c name) as [path|] eqn:E.
    + exists path. split; [reflexivity|]. split; [now apply get_some_in|].
      unfold resolve_name.
      destruct c as [|p c]; [contradiction|].
      destruct (OrderedDict.len (p :: c) >? 0) eqn:G;
        [|unfold OrderedDict.len in G; cbn [List.length] in G;
          rewrite Z.gtb_ltb in G; apply Z.ltb_ge in G; lia].
      unfold OrderedDict.contains. now rewrite E.
    + apply get_none_iff in E. contradiction.
  - intros [-> | [-> | [c [-> Hnot]]]]; try reflexivity.
    unfold resolve_name.
    destruct (OrderedDict.len c >? 0); [|reflexivity].
    apply get_none_iff in Hnot. unfold OrderedDict.contains.
    now rewrite Hnot.
Qed.

Lemma file_range_name_resolution_witness :
  (exists path,
      OrderedDict.get [(lit "game.nsp", lit "/lib/game.nsp")] (lit "game.nsp")
      = Some path
      /\ In (lit "game.nsp", path) [(lit "game.nsp", lit "/lib/game.nsp")]
      /\ resolve_name (Some [(lit "game.nsp", lit "/lib/game.nsp")])
                      (lit "game.nsp") = path)
  /\ resolve_name (Some [(lit "game.nsp", lit "/lib/game.nsp")])
                  (lit "missing.nsp") = lit "missing.nsp".
Proof.
  split.
  - apply (proj1 (file_range_name_resolution
                    (Some [(lit "game.nsp", lit "/lib/game.nsp")])
                    (lit "game.nsp")) [(lit "game.nsp", lit "/lib/game.nsp")]).
    + reflexivity.
    + discriminate.
    + left. reflexivity.
  - apply (proj2 (file_range_name_resolution
                    (Some [(lit "game.nsp", lit "/lib/game.nsp")])
                    (lit "missing.nsp"))).
    right. right. exists [(lit "game.nsp", lit "/lib/game.nsp")].
    split; [reflexivity|]. intros [H | []]. discriminate H.
Defined.

(** The two cases the specification gives. *)
Example resolve_game_nsp :
  resolve_name (Some [(lit "game.nsp", lit "/lib/game.nsp")]) (lit "game.nsp")
  = lit "/lib/game.nsp".
Proof. reflexivity. Qed.

Example resolve_missing_nsp :
  resolve_name (Some [(lit "game.nsp", lit "/lib/game.nsp")])
               (lit "missing.nsp")
  = lit "missing.nsp".
Proof. reflexivity. Qed.

Lemma of_le_u32 (b : bytes) :
  List.length b = 4%nat -> 0 <= Struct.of_le b <= Struct.U32_MAX.
Proof.
  intros H. pose proof (of_le_range b) as R. rewrite H in R.
  unfold Struct.U32_MAX. change (256 ^ Z.of_nat 4) with 4294967296 in R. lia.
Qed.

Lemma of_le_u64 (b : bytes) :
  List.length b = 8%nat -> 0 <= Struct.of_le b <= Struct.U64_MAX.
Proof.
  intros H. pose proof (of_le_range b) as R. rewrite H in R.
  unfold Struct.U64_MAX.
  change (256 ^ Z.of_nat 8) with 18446744073709551616 in R. lia.
Qed.

Ltac take_bytes H l :=
  destruct l as [|? l]; [cbn [List.length] in H; lia|].

(** C8. A FILE_RANGE payload of 16 bytes or more is read as: the range size
    in bytes 0 to 3, the range offset in bytes 4 to 11 and the name length
    in bytes 12 to 15, all little-endian and unsigned, and the name as the
    UTF-8 decoding of everything from byte 16 on. The name length takes no
    part in finding the name: a payload that differs in bytes 12 to 15 only
    parses to the same request but for that field. *)
Theorem file_range_payload_fields (payload : bytes) :
  (16 <= List.length payload)%nat ->
  parse_file_range payload
  = match Utf8.decode (skipn 16 payload) with
    | Some name =>
      Ok (mkRangeRequest (Struct.of_le (firstn 4 payload))
                         (Struct.of_le (firstn 8 (skipn 4 payload)))
                         (Struct.of_le (firstn 4 (skipn 12 payload)))
                         name)
    | None => Raise UnicodeDecodeError
    end
  /\ 0 <= Struct.of_le (firstn 4 payload) <= Struct.U32_MAX
  /\ 0 <= Struct.of_le (firstn 8 (skipn 4 payload)) <= Struct.U64_MAX
  /\ 0 <= Struct.of_le (firstn 4 (skipn 12 payload)) <= Struct.U32_MAX
  /\ forall len_field : bytes,
       List.length len_field = 4%nat ->
       parse_file_range (firstn 12 payload ++ len_field ++ skipn 16 payload)
       = match parse_file_range payload with
         | Ok req =>
           Ok (mkRangeRequest (range_size req) (range_offset req)
                              (Struct.of_le len_field) (nsp_name req))
         | other => other
         end.
Proof.
  intros H.
  do 16 take_bytes H payload.
  split; [reflexivity|].
  split; [|split; [|split]].
  - now apply of_le_u32.
  - now apply of_le_u64.
  - now apply of_le_u32.
  - intros len_field Hlen.
    destruct len_field as [|l0 [|l1 [|l2 [|l3 [|]]]]]; try discriminate.
    unfold parse_file_range.
    cbn [firstn skipn app slice slice_from Nat.sub Struct.unpack_I
         Struct.unpack_Q List.length Nat.eqb].
    destruct (Utf8.decode payload); reflexivity.
Qed.

Lemma file_range_payload_fields_witness :
  parse_file_range example_payload
  = Ok (mkRangeRequest 4 2 0 (lit "a.nsp")).
Proof.
  rewrite (proj1 (file_range_payload_fields example_payload
                    ltac:(cbn; lia))).
  reflexivity.
Defined.

(** ** LIST: the catalog and its serialisation *)

Lemma bind_ok {A B} (c : M A) (k : A -> M B) (w w' : world) (a : A) :
  c w = (Ok a, w') -> bind c k w = k a w'.
Proof. intros H. unfold bind. now rewrite H. Qed.

Lemma bind_raise {A B} (c : M A) (k : A -> M B) (w w' : world) (e : exn) :
  c w = (Raise e, w') -> bind c k w = (Raise e, w').
Proof. intros H. unfold bind. now rewrite H. Qed.

(** A loop whose body only logs computes a fold and leaves the endpoints
    alone. *)
Lemma for_each_fold {A S} (body : A -> S -> M S) (f : S -> A -> S) :
  (forall x s w, exists lg,
      body x s w = (Ok (f s x), mkWorld (usb_in w) (usb_out w) lg)) ->
  forall l s w, exists lg,
      for_each l body s w
      = (Ok (fold_left f l s), mkWorld (usb_in w) (usb_out w) lg).
Proof.
  intros Hbody l. induction l as [|x l IH]; intros s w.
  - exists (log w). now destruct w.
  - cbn [for_each fold_left]. destruct (Hbody x s w) as [lg1 H1].
    rewrite (bind_ok _ _ _ _ _ H1).
    destruct (IH (f s x) (mkWorld (usb_in w) (usb_out w) lg1)) as [lg2 H2].
    exists lg2. exact H2.
Qed.

Lemma collect_roms_run (joinpath : str -> str -> str) (top : dirtree)
      (w : world) :
  exists lg,
    collect_roms joinpath top w
    = (Ok (catalog_of joinpath top), mkWorld (usb_in w) (usb_out w) lg).
Proof.
  unfold collect_roms, catalog_of.
  apply (for_each_fold (collect_directory joinpath)
           (fun c entry =>
              fold_left (catalog_step joinpath (fst entry)) (snd entry) c)).
  intros [dirName fileList] c w0. cbn [collect_directory fst snd].
  unfold bind at 1. cbn [log_call usb_in usb_out log].
  assert (Hfile : forall filename c' w1, exists lg,
             collect_file joinpath dirName filename c' w1
             = (Ok (catalog_step joinpath dirName c' filename),
                mkWorld (usb_in w1) (usb_out w1) lg)).
  { intros filename c' w1. unfold collect_file, catalog_step.
    destruct (is_rom filename).
    - eexists. reflexivity.
    - exists (log w1). now destruct w1. }
  match goal with
  | |- exists _, for_each _ _ _ ?W = _ =>
    destruct (for_each_fold _ _ Hfile fileList c W) as [lg H]
  end.
  exists lg. exact H.
Qed.

Lemma read_ack_run (w : world) :
  (16 <= List.length (usb_in w))%nat ->
  exists lg,
    read_ack w = (Ok tt, mkWorld (skipn 16 (usb_in w)) (usb_out w) lg).
Proof.
  intros H. destruct w as [input out lg]. cbn [usb_in usb_out] in *.
  destruct (split_input 16 input H) as [h [rest [-> Hh]]].
  unfold read_ack.
  rewrite (bind_ok _ _ _ _ _ (context_read_exact 16 h rest out lg Hh)).
  do 16 take_bytes Hh h. destruct h; [|discriminate].
  eexists. reflexivity.
Qed.

Lemma read_ack_short (w : world) :
  (List.length (usb_in w) < 16)%nat -> read_ack w = (Raise USBError, w).
Proof.
  intros H. unfold read_ack.
  apply bind_raise. apply context_read_short. exact H.
Qed.

Lemma join_names_from (names : list str) (acc : str) :
  fold_left (fun nsp_path_list rom => nsp_path_list ++ rom ++ NEWLINE)
            names acc
  = acc ++ List.concat (map (fun rom => rom ++ NEWLINE) names).
Proof.
  revert acc. induction names as [|n names IH]; intros acc; cbn.
  - now rewrite app_nil_r.
  - rewrite IH. now rewrite <- !app_assoc.
Qed.

Lemma join_names_concat (names : list str) :
  join_names names = List.concat (map (fun rom => rom ++ NEWLINE) names).
Proof. unfold join_names. now rewrite join_names_from. Qed.

Lemma encode_char_length (c : Z) (b : bytes) :
  Utf8.encode_char c = Some b -> Z.of_nat (List.length b) = Utf8.width c.
Proof.
  unfold Utf8.encode_char, Utf8.width.
  destruct (c <? 0); [discriminate|].
  destruct (c <? 128); [intros H; inversion H; reflexivity|].
  destruct (c <? 2048); [intros H; inversion H; reflexivity|].
  destruct (c <? 65536).
  - destruct ((55296 <=? c) && (c <=? 57343)); [discriminate|].
    intros H; inversion H; reflexivity.
  - destruct (c <? 1114112); [|discriminate].
    intros H; inversion H; reflexivity.
Qed.

Lemma encode_length (s : str) (b : bytes) :
  Utf8.encode s = Some b -> Z.of_nat (List.length b) = Utf8.byte_length s.
Proof.
  revert b. induction s as [|c s IH]; intros b; cbn [Utf8.encode].
  - intros H. inversion H. reflexivity.
  - destruct (Utf8.encode_char c) as [a|] eqn:Ec; [|discriminate].
    destruct (Utf8.encode s) as [b'|]; [|discriminate].
    intros H. inversion H; subst.
    rewrite length_app, Nat2Z.inj_add.
    rewrite (encode_char_length c a Ec), (IH b' eq_refl). reflexivity.
Qed.

Lemma bind_lift_some {A B} (e : exn) (a : A) (k : A -> M B) (w : world) :
  bind (lift e (Some a)) k w = k a w.
Proof. reflexivity. Qed.

Lemma bind_lift_none {A B} (e : exn) (k : A -> M B) (w : world) :
  bind (lift e (@None A)) k w = (Raise e, w).
Proof. reflexivity. Qed.

Lemma process_list_command_run
      (joinpath : str -> str -> str) (work_dir_path : dirtree) (w : world) :
  exists lg,
    process_list_command joinpath work_dir_path w
    = send_rom_list (catalog_of joinpath work_dir_path)
                    (mkWorld (usb_in w) (usb_out w) lg).
Proof.
  unfold process_list_command.
  unfold bind at 1. cbn [log_call usb_in usb_out log].
  match goal with
  | |- context [bind (collect_roms _ _) _ ?W] =>
    destruct (collect_roms_run joinpath work_dir_path W) as [lg1 H1];
      rewrite (bind_ok _ _ _ _ _ H1)
  end.
  exists lg1. reflexivity.
Qed.

(** C4. The LIST handler joins the keys of the cache, each followed by a
    newline, and encodes the text as UTF-8. The RESPONSE header it writes
    carries the number of bytes of that encoding as its size, and the block
    it writes once the ACK has been read is that encoding: the length of
    the payload is the size announced, and it is the UTF-8 length of the
    joined names. The handler writes nothing at all when a name has no
    UTF-8 encoding or the text is longer than a 32-bit size can tell, and
    only the header when no ACK arrives. *)
Theorem list_payload_length_matches_header
        (joinpath : str -> str -> str) (work_dir_path : dirtree) (w : world) :
  let cached_roms := catalog_of joinpath work_dir_path in
  let names := OrderedDict.keys cached_roms in
  let run := process_list_command joinpath work_dir_path w in
  join_names names = List.concat (map (fun rom => rom ++ NEWLINE) names)
  /\ match Utf8.encode (join_names names) with
     | None =>
       exists lg,
       run = (Raise UnicodeEncodeError, mkWorld (usb_in w) (usb_out w) lg)
     | Some payload =>
       let size := Z.of_nat (List.length payload) in
       size = Utf8.byte_length (join_names names)
       /\ if size <=? Struct.U32_MAX then
            exists header,
              encode_header CommandType.RESPONSE CommandID.LIST size
              = Some header
              /\ decode_header header
                 = Header CommandType.RESPONSE CommandID.LIST size
              /\ if (16 <=? List.length (usb_in w))%nat then
                   exists lg,
                   run = (Ok cached_roms,
                          mkWorld (skipn 16 (usb_in w))
                                  (usb_out w ++ [(ListResponse, header);
                                                 (ListPayload, payload)])
                                  lg)
                 else
                   exists lg,
                   run = (Raise USBError,
                          mkWorld (usb_in w)
                                  (usb_out w ++ [(ListResponse, header)]) lg)
          else
            exists lg,
            run = (Raise StructError, mkWorld (usb_in w) (usb_out w) lg)
     end.
Proof.
  intros cached_roms names run.
  split; [apply join_names_concat|].
  destruct (process_list_command_run joinpath work_dir_path w) as [lg1 Hrun].
  fold cached_roms in Hrun. fold run in Hrun.
  set (w1 := mkWorld (usb_in w) (usb_out w) lg1) in Hrun.
  rewrite Hrun. unfold send_rom_list. fold names.
  destruct (Utf8.encode (join_names names)) as [payload|] eqn:Eenc.
  - rewrite bind_lift_some. cbv zeta.
    split; [now apply encode_length|].
    destruct (Z.of_nat (List.length payload) <=? Struct.U32_MAX) eqn:Esize.
    + apply Z.leb_le in Esize.
      assert (Hsize : 0 <= Z.of_nat (List.length payload) <= Struct.U32_MAX)
        by lia.
      assert (Ht : 0 <= CommandType.RESPONSE <= Struct.U32_MAX)
        by (unfold CommandType.RESPONSE, Struct.U32_MAX; lia).
      assert (Hi : 0 <= CommandID.LIST <= Struct.U32_MAX)
        by (unfold CommandID.LIST, Struct.U32_MAX; lia).
      eexists. split; [now apply encode_header_some|].
      split; [now apply decode_encoded|].
      rewrite (encode_header_some _ _ _ Ht Hi Hsize), bind_lift_some.
      destruct (16 <=? List.length (usb_in w))%nat eqn:Eack;
        unfold bind at 1; cbn [context_write usb_in usb_out log w1].
      * apply Nat.leb_le in Eack.
        match goal with
        | |- context [bind read_ack _ ?W] =>
          destruct (read_ack_run W Eack) as [lg2 H2];
            rewrite (bind_ok _ _ _ _ _ H2)
        end.
        cbn [usb_in usb_out]. eexists.
        unfold bind, context_write, ret. cbn [usb_in usb_out log].
        rewrite <- app_assoc. reflexivity.
      * apply Nat.leb_gt in Eack. eexists.
        apply bind_raise. apply read_ack_short. exact Eack.
    + apply Z.leb_gt in Esize.
      rewrite encode_header_none by lia.
      rewrite bind_lift_none. eexists. reflexivity.
  - rewrite bind_lift_none. eexists. reflexivity.
Qed.

(** The end-to-end scenario of the specification, its LIST half: a
    directory with [a.nsp] and [b.xci] is answered with a header of size 12
    and the 12 bytes of "a.nsp\nb.xci\n". *)
Example list_two_files :
  process_list_command posix_joinpath
    (Dir (lit "/roms") [] [lit "a.nsp"; lit "b.xci"])
    (mkWorld EXIT_RESPONSE [] [])
  = (Ok [(lit "a.nsp", lit "/roms/a.nsp"); (lit "b.xci", lit "/roms/b.xci")],
     mkWorld []
       [(ListResponse,
         MAGIC ++ [x01; x00; x00; x00] ++ [x03; x00; x00; x00]
               ++ [x0c; x00; x00; x00]);
        (ListPayload,
         [x61; x2e; x6e; x73; x70; x0a; x62; x2e; x78; x63; x69; x0a])]
       [(INFO, MsgGetList);
        (DEBUG, MsgFoundDirectory (lit "/roms"));
        (DEBUG, MsgFile (lit "a.nsp"));
        (DEBUG, MsgFile (lit "b.xci"));
        (DEBUG, MsgCmd 1 0 0);
        (DEBUG, MsgAck)]).
Proof. reflexivity. Qed.

(** ** The file name test of line 121 *)

Lemma endswith_iff (s suffix : str) :
  endswith s suffix = true <-> exists pre, s = pre ++ suffix.
Proof.
  unfold endswith. rewrite andb_true_iff, Nat.leb_le, str_eqb_eq. split.
  - intros [Hlen Heq].
    exists (firstn (List.length s - List.length suffix) s).
    pose proof (firstn_skipn (List.length s - List.length suffix) s) as Hs.
    rewrite Heq in Hs. now symmetry.
  - intros [pre ->]. rewrite length_app. split; [lia|].
    replace (List.length pre + List.length suffix - List.length suffix)%nat
      with (List.length pre) by lia.
    rewrite skipn_app, Nat.sub_diag, skipn_all. reflexivity.
Qed.

Lemma endswith_tail (s : str) (c : Z) (suffix : str) :
  endswith s (c :: suffix) = true -> endswith s suffix = true.
Proof.
  rewrite !endswith_iff. intros [pre ->]. exists (pre ++ [c]).
  now rewrite <- app_assoc.
Qed.

Lemma is_rom_has_rom_extension (filename : str) :
  is_rom filename
  = has_rom_extension filename || endswith (lower filename) (lit "nsz").
Proof.
  unfold is_rom, has_rom_extension.
  destruct (endswith (lower filename) (lit ".nsp")); [reflexivity|].
  destruct (endswith (lower filename) (lit ".nsz")) eqn:E.
  - apply (endswith_tail _ (ord ".") (lit "nsz")) in E.
    cbn [orb]. now rewrite E.
  - cbn [orb].
    destruct (endswith (lower filename) (lit "nsz"));
      destruct (endswith (lower filename) (lit ".xci")); reflexivity.
Qed.

(** C9. The test for [nsz] asks for the three letters only: the name
    [gamensz] ends in none of [.nsp], [.nsz], [.xci] and is collected all
    the same, and so is every name whose lowercased form ends in [nsz]. The
    tests for [nsp] and [xci] ask for the dot: [gamensp] and [gamexci] are
    not collected. *)
Theorem nsz_is_matched_without_dot :
  (exists filename,
      has_rom_extension filename = false
      /\ is_rom filename = true
      /\ forall joinpath dirName,
           catalog_of joinpath (Dir dirName [] [filename])
           = [(filename, joinpath dirName filename)])
  /\ (forall filename,
         is_rom filename
         = has_rom_extension filename
           || endswith (lower filename) (lit "nsz"))
  /\ is_rom (lit "gamensp") = false
  /\ is_rom (lit "gamexci") = false.
Proof.
  split; [|split; [exact is_rom_has_rom_extension | split; reflexivity]].
  exists (lit "gamensz").
  split; [reflexivity|]. split; reflexivity.
Qed.

(** C1, at a name without extension. A directory that holds the one file
    [gamensz], whose lowercased name ends in none of [.nsp], [.nsz] and
    [.xci], gets that file into the catalog and onto the list sent. *)
Theorem catalog_takes_name_without_extension :
  has_rom_extension (lit "gamensz") = false
  /\ process_list_command posix_joinpath
       (Dir (lit "/roms") [] [lit "gamensz"; lit "readme.txt"])
       (mkWorld EXIT_RESPONSE [] [])
     = (Ok [(lit "gamensz", lit "/roms/gamensz")],
        mkWorld []
          [(ListResponse,
            MAGIC ++ [x01; x00; x00; x00] ++ [x03; x00; x00; x00]
                  ++ [x08; x00; x00; x00]);
           (ListPayload, [x67; x61; x6d; x65; x6e; x73; x7a; x0a])]
          [(INFO, MsgGetList);
           (DEBUG, MsgFoundDirectory (lit "/roms"));
           (DEBUG, MsgFile (lit "gamensz"));
           (DEBUG, MsgCmd 1 0 0);
           (DEBUG, MsgAck)]).
Proof. split; reflexivity. Qed.

(** ** FILE_RANGE: streaming the range *)

Lemma firstn_add {A} (a b : nat) (l : list A) :
  firstn (a + b) l = firstn a l ++ firstn b (skipn a l).
Proof.
  revert l. induction a as [|a IH]; intros l; [reflexivity|].
  destruct l as [|x l]; cbn.
  - now rewrite firstn_nil.
  - now rewrite IH.
Qed.

Lemma skipn_length_firstn {A} (n : nat) (l : list A) :
  skipn (List.length (firstn n l)) l = skipn n l.
Proof.
  rewrite length_firstn.
  destruct (Nat.le_ge_cases n (List.length l)) as [H | H].
  - now rewrite Nat.min_l.
  - rewrite Nat.min_r by exact H.
    rewrite skipn_all. symmetry. now apply skipn_all2.
Qed.

Lemma stream_range_run (fuel : nat) :
  forall (f : file) (curr_off rem : Z) (w : world),
    (Z.to_nat rem <= fuel)%nat -> 0 <= pos f ->
    let rest := skipn (Z.to_nat (pos f)) (content f) in
    exists (chunks : list bytes) (warned : bool),
      stream_range fuel f curr_off rem w
      = (Ok tt, mkWorld (usb_in w) (usb_out w ++ file_data chunks)
                        (log w ++ eof_warning warned))
      /\ List.concat chunks = firstn (Z.to_nat rem) rest
      /\ Forall chunk_sized chunks
      /\ (warned = true
          <-> reads_at_eof (Z.of_nat (List.length rest)) rem).
Proof.
  induction fuel as [|fuel IH]; intros f c rem w Hfuel Hpos rest.
  - assert (Hrem : rem <= 0) by lia.
    exists [], false. cbn [stream_range].
    destruct (rem >? 0) eqn:G; [rewrite Z.gtb_ltb in G; apply Z.ltb_lt in G; lia|].
    unfold ret, file_data, eof_warning. cbn [map]. rewrite !app_nil_r.
    split; [now destruct w|].
    split; [replace (Z.to_nat rem) with 0%nat by lia; reflexivity|].
    split; [constructor|].
    split; [discriminate|]. intros [k [Hk [Hlt _]]].
    unfold BUFFER_SEGMENT_DATA_SIZE in Hlt. lia.
  - cbn [stream_range]. destruct (rem >? 0) eqn:G.
    + rewrite Z.gtb_ltb in G. apply Z.ltb_lt in G.
      set (chunk_size := Z.min BUFFER_SEGMENT_DATA_SIZE rem).
      assert (Hchunk : 0 < chunk_size <= rem
                       /\ chunk_size <= BUFFER_SEGMENT_DATA_SIZE)
        by (unfold chunk_size, BUFFER_SEGMENT_DATA_SIZE; lia).
      unfold file_read. fold rest.
      set (n := Z.to_nat chunk_size).
      assert (Hn : (0 < n <= Z.to_nat rem)%nat) by (unfold n; lia).
      destruct (firstn n rest) as [|x buf] eqn:Ebuf.
      * (* nothing left to read *)
        assert (Hrest : rest = []).
        { destruct rest as [|y rest']; [reflexivity|].
          destruct n; [lia | discriminate]. }
        exists [], true. unfold log_call, file_data, eof_warning.
        cbn [map]. rewrite app_nil_r, Hrest, firstn_nil.
        split; [reflexivity|]. split; [reflexivity|].
        split; [constructor|].
        split; [|reflexivity]. intros _. exists 0.
        cbn [List.length]. lia.
      * (* a block is written and the loop goes on *)
        rewrite <- Ebuf.
        set (f' := mkFile (content f)
                          (pos f + Z.of_nat (List.length (firstn n rest)))).
        assert (Hrest' : skipn (Z.to_nat (pos f')) (content f')
                         = skipn n rest).
        { unfold f'. cbn [pos content].
          replace (Z.to_nat (pos f + Z.of_nat (List.length (firstn n rest))))
            with (List.length (firstn n rest) + Z.to_nat (pos f))%nat by lia.
          rewrite <- skipn_skipn. fold rest. apply skipn_length_firstn. }
        unfold bind at 1. cbn [context_write usb_in usb_out log].
        match goal with
        | |- context [stream_range fuel f' ?C ?R ?W] =>
          destruct (IH f' C R W) as [chunks [warned [Hrun [Hcat [Hsz Hw]]]]];
            [lia | unfold f'; cbn [pos]; lia |]
        end.
        cbn [usb_in usb_out log] in Hrun. rewrite Hrest' in Hcat, Hw.
        exists (firstn n rest :: chunks), warned.
        split; [|split; [|split]].
        -- rewrite Hrun. unfold file_data. cbn [map].
           now rewrite <- app_assoc.
        -- cbn [List.concat]. rewrite Hcat.
           replace (Z.to_nat (rem - chunk_size))
             with (Z.to_nat rem - n)%nat by (unfold n; lia).
           rewrite <- firstn_add. f_equal. lia.
        -- constructor; [|exact Hsz]. unfold chunk_sized.
           rewrite Ebuf. cbn [List.length].
           assert (List.length (firstn n rest) <= n)%nat
             by apply firstn_le_length.
           rewrite Ebuf in H. cbn [List.length] in H. unfold n in H. lia.
        -- rewrite Hw. rewrite length_skipn.
           assert (Hne : (0 < List.length rest)%nat).
           { destruct rest; [now rewrite firstn_nil in Ebuf|].
             cbn [List.length]. lia. }
           unfold reads_at_eof, BUFFER_SEGMENT_DATA_SIZE in *.
           split.
           ++ intros [k [Hk [Hlt Hle]]]. exists (k + 1). unfold n in Hle. lia.
           ++ intros [k [Hk [Hlt Hle]]]. exists (k - 1). unfold n. lia.
    + exists [], false. unfold ret, file_data, eof_warning. cbn [map].
      rewrite !app_nil_r.
      rewrite Z.gtb_ltb in G. apply Z.ltb_ge in G.
      split; [now destruct w|].
      split; [replace (Z.to_nat rem) with 0%nat by lia; reflexivity|].
      split; [constructor|].
      split; [discriminate|]. intros [k [Hk [Hlt _]]].
      unfold BUFFER_SEGMENT_DATA_SIZE in Hlt. lia.
Qed.

Lemma send_file_range_run (data : bytes) (offset size : Z) (w : world) :
  0 <= offset < 2 ^ 63 ->
  let rest := skipn (Z.to_nat offset) data in
  exists (chunks : list bytes) (warned : bool),
    send_file_range data offset size w
    = (Ok tt, mkWorld (usb_in w) (usb_out w ++ file_data chunks)
                      (log w ++ eof_warning warned))
    /\ List.concat chunks = firstn (Z.to_nat size) rest
    /\ Forall chunk_sized chunks
    /\ (warned = true <-> reads_at_eof (Z.of_nat (List.length rest)) size).
Proof.
  intros Hoff rest. unfold send_file_range, file_seek.
  destruct (offset <? 2 ^ 63) eqn:E; [|apply Z.ltb_ge in E; lia].
  unfold bind at 1, ret.
  apply (stream_range_run (Z.to_nat size) (mkFile data offset) 0 size w).
  - lia.
  - cbn [pos]. lia.
Qed.

(** A range that lies within the file is sent whole, in blocks of at most
    1 MiB, and nothing is logged. *)
Lemma range_within_file (data : bytes) (offset size : Z) (w : world) :
  0 <= offset < 2 ^ 63 -> 0 <= size ->
  offset + size <= Z.of_nat (List.length data) ->
  exists chunks : list bytes,
    send_file_range data offset size w
    = (Ok tt, mkWorld (usb_in w) (usb_out w ++ file_data chunks) (log w))
    /\ List.concat chunks
       = firstn (Z.to_nat size) (skipn (Z.to_nat offset) data)
    /\ Z.of_nat (List.length (List.concat chunks)) = size
    /\ Forall chunk_sized chunks.
Proof.
  intros Hoff Hsize Hin.
  destruct (send_file_range_run data offset size w Hoff)
    as [chunks [warned [Hrun [Hcat [Hsz Hw]]]]].
  assert (Hlen : Z.of_nat (List.length (skipn (Z.to_nat offset) data))
                 = Z.of_nat (List.length data) - offset)
    by (rewrite length_skipn; lia).
  assert (warned = false) as ->.
  { destruct warned; [|reflexivity].
    destruct (proj1 Hw eq_refl) as [k [Hk [Hlt Hle]]]. lia. }
  exists chunks. cbn [eof_warning] in Hrun. rewrite app_nil_r in Hrun.
  split; [exact Hrun|]. split; [exact Hcat|]. split; [|exact Hsz].
  rewrite Hcat, length_firstn, length_skipn. lia.
Qed.

(** A range that reaches beyond the end of the file: what is left of the
    file is sent, which is less than asked for, and the handler returns
    without raising. The warning is logged when, and only when, the loop
    comes to a read at the end of the file. *)
Lemma range_beyond_file (data : bytes) (offset size : Z) (w : world) :
  0 <= offset < 2 ^ 63 -> 0 < size ->
  offset + size > Z.of_nat (List.length data) ->
  exists (chunks : list bytes) (warned : bool),
    send_file_range data offset size w
    = (Ok tt, mkWorld (usb_in w) (usb_out w ++ file_data chunks)
                      (log w ++ eof_warning warned))
    /\ List.concat chunks = skipn (Z.to_nat offset) data
    /\ Z.of_nat (List.length (List.concat chunks)) < size
    /\ Forall chunk_sized chunks
    /\ (warned = true
        <-> reads_at_eof
              (Z.of_nat (List.length (skipn (Z.to_nat offset) data))) size).
Proof.
  intros Hoff Hsize Hout.
  destruct (send_file_range_run data offset size w Hoff)
    as [chunks [warned [Hrun [Hcat [Hsz Hw]]]]].
  assert (Hall : firstn (Z.to_nat size) (skipn (Z.to_nat offset) data)
                 = skipn (Z.to_nat offset) data).
  { apply firstn_all2. rewrite length_skipn. lia. }
  exists chunks, warned. rewrite Hall in Hcat.
  split; [exact Hrun|]. split; [exact Hcat|].
  split; [|split; [exact Hsz | exact Hw]].
  rewrite Hcat, length_skipn. lia.
Qed.

(** The last read may come back short: when the file ends within the last
    block asked for, the bytes that are there are sent and no warning is
    logged. *)
Lemma short_last_read_is_silent (data : bytes) (offset size : Z) (w : world) :
  0 <= offset < 2 ^ 63 ->
  offset < Z.of_nat (List.length data) < offset + size ->
  size <= BUFFER_SEGMENT_DATA_SIZE ->
  send_file_range data offset size w
  = (Ok tt,
     mkWorld (usb_in w)
             (usb_out w ++ [(FileData, skipn (Z.to_nat offset) data)])
             (log w)).
Proof.
  intros Hoff Hlen Hsize.
  unfold send_file_range, file_seek.
  destruct (offset <? 2 ^ 63) eqn:E; [|apply Z.ltb_ge in E; lia].
  unfold bind at 1, ret.
  assert (Hpos : 0 < size) by lia.
  destruct (Z.to_nat size) as [|fuel] eqn:Efuel; [lia|].
  cbn [stream_range].
  destruct (size >? 0) eqn:G;
    [|rewrite Z.gtb_ltb in G; apply Z.ltb_ge in G; lia].
  rewrite Z.min_r by exact Hsize.
  unfold file_read. cbn [pos content].
  rewrite firstn_all2 by (rewrite length_skipn; lia).
  destruct (skipn (Z.to_nat offset) data) as [|x rest] eqn:Erest.
  { assert (H0 : List.length (skipn (Z.to_nat offset) data) = 0%nat)
      by now rewrite Erest.
    rewrite length_skipn in H0. lia. }
  unfold bind, context_write. cbn [usb_in usb_out log].
  replace (size - size) with 0 by lia.
  destruct fuel; reflexivity.
Qed.

Lemma short_last_read_is_silent_example :
  send_file_range [x01; x02; x03; x04] 0 10 (mkWorld [] [] [])
  = (Ok tt, mkWorld [] [(FileData, [x01; x02; x03; x04])] []).
Proof.
  apply (short_last_read_is_silent [x01; x02; x03; x04] 0 10
                                   (mkWorld [] [] []));
    cbn; unfold BUFFER_SEGMENT_DATA_SIZE; lia.
Defined.

(** The same file asked for more than one block: the second read comes
    back empty and the warning is logged. *)
Lemma long_range_beyond_file_warns (w : world) :
  exists chunks : list bytes,
    send_file_range [x01; x02; x03; x04] 0 (BUFFER_SEGMENT_DATA_SIZE + 1) w
    = (Ok tt, mkWorld (usb_in w) (usb_out w ++ file_data chunks)
                      (log w ++ [(WARNING, MsgUnexpectedEOF)]))
    /\ List.concat chunks = [x01; x02; x03; x04].
Proof.
  destruct (range_beyond_file [x01; x02; x03; x04] 0
              (BUFFER_SEGMENT_DATA_SIZE + 1) w)
    as [chunks [warned [Hrun [Hcat [_ [_ Hw]]]]]];
    try (cbn; unfold BUFFER_SEGMENT_DATA_SIZE; lia).
  assert (warned = true) as ->.
  { apply Hw. exists 1. cbn. unfold BUFFER_SEGMENT_DATA_SIZE. lia. }
  exists chunks. split; [exact Hrun | exact Hcat].
Qed.

(** C2, at a range that ends beyond the file. Asked for 10 bytes from
    offset 0 of a file of 4 bytes, the handler announces 10 bytes, sends the
    4 bytes there are and returns: no warning is logged. *)
Theorem short_range_is_sent_without_warning :
  process_file_range_command four_byte_file 17 None
    (mkWorld short_file_request [] [])
  = (Ok tt,
     mkWorld []
       [(FileRangeAck,
         MAGIC ++ [x02; x00; x00; x00] ++ [x02; x00; x00; x00]
               ++ [x11; x00; x00; x00]);
        (FileRangeResponse,
         MAGIC ++ [x01; x00; x00; x00] ++ [x02; x00; x00; x00]
               ++ [x0a; x00; x00; x00]);
        (FileData, [x01; x02; x03; x04])]
       [(INFO, MsgFileRange);
        (INFO, MsgRange 10 0 1 (lit "f"));
        (DEBUG, MsgCmd 2 2 10);
        (DEBUG, MsgAck)])
  /\ ~ In (WARNING, MsgUnexpectedEOF)
          (log (snd (process_file_range_command four_byte_file 17 None
                       (mkWorld short_file_request [] [])))).
Proof.
  split; [reflexivity|].
  cbn. intros [H | [H | [H | [H | []]]]]; discriminate H.
Qed.

(** ** The catalog, for the file name test as coded *)

Lemma fold_left_flat_map {A B C} (f : A -> B -> A) (g : C -> list B)
      (l : list C) (a : A) :
  fold_left f (flat_map g l) a
  = fold_left (fun a x => fold_left f (g x) a) l a.
Proof.
  revert a. induction l as [|x l IH]; intros a; cbn; [reflexivity|].
  now rewrite fold_left_app, IH.
Qed.

Lemma catalog_step_set_all (joinpath : str -> str -> str) (dirName : str)
      (fileList : list str) (d : OrderedDict.t) :
  fold_left (catalog_step joinpath dirName) fileList d
  = set_all (map (fun filename => (filename, joinpath dirName filename))
                 (filter is_rom fileList)) d.
Proof.
  revert d. induction fileList as [|x l IH]; intros d; [reflexivity|].
  cbn [fold_left filter]. unfold catalog_step at 2.
  destruct (is_rom x); [|apply IH].
  cbn [map]. unfold set_all. cbn [fold_left fst snd]. apply IH.
Qed.

(** The catalog is what the assignments [cached_roms[filename] = path] make
    of the files discovered, taken in order. *)
Lemma catalog_of_discovered (joinpath : str -> str -> str) (top : dirtree) :
  catalog_of joinpath top
  = set_all (discovered joinpath top) OrderedDict.empty.
Proof.
  unfold catalog_of, discovered, set_all.
  rewrite fold_left_flat_map.
  generalize OrderedDict.empty. induction (os_walk top) as [|e l IH];
    intros d; [reflexivity|].
  cbn [fold_left]. rewrite catalog_step_set_all. apply IH.
Qed.

Lemma in_discovered (joinpath : str -> str -> str) (top : dirtree)
      (name path : str) :
  In (name, path) (discovered joinpath top)
  <-> exists dirName fileList,
        In (dirName, fileList) (os_walk top)
        /\ In name fileList
        /\ is_rom name = true
        /\ path = joinpath dirName name.
Proof.
  unfold discovered. rewrite in_flat_map. split.
  - intros [[dirName fileList] [Hwalk Hin]]. cbn [fst snd] in Hin.
    apply in_map_iff in Hin. destruct Hin as [f [Heq Hf]].
    apply filter_In in Hf. inversion Heq; subst.
    exists dirName, fileList. tauto.
  - intros [dirName [fileList [Hwalk [Hin [Hrom ->]]]]].
    exists (dirName, fileList). split; [exact Hwalk|]. cbn [fst snd].
    apply in_map_iff. exists name. split; [reflexivity|].
    apply filter_In. tauto.
Qed.

Lemma existsb_str_eqb (k : str) (l : list str) :
  existsb (str_eqb k) l = true <-> In k l.
Proof.
  rewrite existsb_exists. split.
  - intros [x [Hin Heq]]. apply str_eqb_eq in Heq. now subst.
  - intros H. exists k. split; [exact H | apply str_eqb_refl].
Qed.

Lemma keys_set (d : OrderedDict.t) (k v : str) :
  OrderedDict.keys (OrderedDict.set d k v)
  = if existsb (str_eqb k) (OrderedDict.keys d)
    then OrderedDict.keys d
    else OrderedDict.keys d ++ [k].
Proof.
  unfold OrderedDict.keys.
  induction d as [|[k' v'] d IH]; [reflexivity|].
  cbn [OrderedDict.set map fst existsb app].
  destruct (str_eqb k' k) eqn:E.
  - apply str_eqb_eq in E. subst. now rewrite str_eqb_refl.
  - assert (E' : str_eqb k k' = false).
    { apply str_eqb_neq. apply str_eqb_neq in E. congruence. }
    rewrite E'. cbn [orb map fst]. rewrite IH.
    now destruct (existsb (str_eqb k) (map fst d)).
Qed.

Lemma get_set (d : OrderedDict.t) (k' v k : str) :
  OrderedDict.get (OrderedDict.set d k' v) k
  = if str_eqb k' k then Some v else OrderedDict.get d k.
Proof.
  induction d as [|[k0 v0] d IH]; cbn [OrderedDict.set OrderedDict.get].
  - reflexivity.
  - destruct (str_eqb k0 k') eqn:E; cbn [OrderedDict.get].
    + apply str_eqb_eq in E. subst k0. now destruct (str_eqb k' k).
    + destruct (str_eqb k0 k) eqn:E0.
      * apply str_eqb_eq in E0. subst k0.
        assert (E' : str_eqb k' k = false).
        { apply str_eqb_neq. apply str_eqb_neq in E. congruence. }
        now rewrite E'.
      * exact IH.
Qed.

Lemma keys_set_all (pairs : list (str * str)) (d : OrderedDict.t) :
  OrderedDict.keys (set_all pairs d)
  = OrderedDict.keys d
    ++ first_occurrences (OrderedDict.keys d) (map fst pairs).
Proof.
  revert d. induction pairs as [|[k v] pairs IH]; intros d.
  - cbn. now rewrite app_nil_r.
  - unfold set_all in *. cbn [fold_left map fst snd first_occurrences].
    rewrite IH, keys_set.
    destruct (existsb (str_eqb k) (OrderedDict.keys d)); [reflexivity|].
    now rewrite <- app_assoc.
Qed.

Lemma get_set_all (pairs : list (str * str)) (d : OrderedDict.t) (k : str) :
  OrderedDict.get (set_all pairs d) k
  = match last_path k pairs with
    | Some v => Some v
    | None => OrderedDict.get d k
    end.
Proof.
  revert d. induction pairs as [|[k' v] pairs IH]; intros d; [reflexivity|].
  unfold set_all in *. cbn [fold_left fst snd last_path].
  rewrite IH, get_set.
  destruct (last_path k pairs); [reflexivity|].
  now destruct (str_eqb k' k).
Qed.

(** The keys of the catalog are the names discovered, each at the place of
    its first discovery. *)
Lemma catalog_keys_first_occurrences
      (joinpath : str -> str -> str) (top : dirtree) :
  OrderedDict.keys (catalog_of joinpath top)
  = first_occurrences [] (map fst (discovered joinpath top)).
Proof. rewrite catalog_of_discovered. apply keys_set_all. Qed.

(** A name is mapped to the path of its last discovery. *)
Lemma catalog_get_last_path
      (joinpath : str -> str -> str) (top : dirtree) (name : str) :
  OrderedDict.get (catalog_of joinpath top) name
  = last_path name (discovered joinpath top).
Proof.
  rewrite catalog_of_discovered, get_set_all.
  now destruct (last_path name (discovered joinpath top)).
Qed.

(** A name discovered twice: the key stays where it was first put, the
    path is the later one. *)
Example duplicate_display_name :
  catalog_of posix_joinpath
    (Dir (lit "/r")
         [Dir (lit "/r/x") [] [lit "a.nsp"]]
         [lit "a.nsp"; lit "b.XCI"; lit "c.txt"])
  = [(lit "a.nsp", lit "/r/x/a.nsp"); (lit "b.XCI", lit "/r/b.XCI")].
Proof. reflexivity. Qed.


(** ** The UTF-8 codec: decoding undoes encoding *)

Lemma byte_val_small (n : Z) : 0 <= n < 256 -> byte_val (byte_of_Z n) = n.
Proof. intros H. rewrite byte_val_of_Z. now apply Z.mod_small. Qed.

Ltac divlia := Z.div_mod_to_equations; lia.

Ltac split_tests :=
  repeat match goal with
         | |- context [if ?b then _ else _] =>
           let E := fresh "E" in destruct b eqn:E; try lia
         end.

Lemma decode_1 (b0 : byte) (rest : bytes) :
  byte_val b0 < 0x80 ->
  Utf8.decode (b0 :: rest) = option_map (cons (byte_val b0)) (Utf8.decode rest).
Proof.
  intros H. cbn [Utf8.decode]. split_tests. reflexivity.
Qed.

Lemma decode_2 (b0 b1 : byte) (rest : bytes) :
  0xC2 <= byte_val b0 <= 0xDF -> 0x80 <= byte_val b1 <= 0xBF ->
  Utf8.decode (b0 :: b1 :: rest)
  = option_map (cons ((byte_val b0 - 0xC0) * 64 + (byte_val b1 - 0x80)))
               (Utf8.decode rest).
Proof.
  intros H0 H1. cbn [Utf8.decode]. unfold Utf8.within, Utf8.cont.
  split_tests. reflexivity.
Qed.

Lemma decode_3 (b0 b1 b2 : byte) (rest : bytes) :
  0xE0 <= byte_val b0 <= 0xEF ->
  (if byte_val b0 =? 0xE0 then 0xA0 else 0x80) <= byte_val b1
  <= (if byte_val b0 =? 0xED then 0x9F else 0xBF) ->
  0x80 <= byte_val b2 <= 0xBF ->
  Utf8.decode (b0 :: b1 :: b2 :: rest)
  = option_map (cons ((byte_val b0 - 0xE0) * 4096
                      + (byte_val b1 - 0x80) * 64 + (byte_val b2 - 0x80)))
               (Utf8.decode rest).
Proof.
  intros H0 H1 H2. cbn [Utf8.decode]. unfold Utf8.within, Utf8.cont.
  destruct (byte_val b0 <? 128) eqn:E1; [lia|].
  destruct ((194 <=? byte_val b0) && (byte_val b0 <=? 223)) eqn:E2; [lia|].
  destruct ((224 <=? byte_val b0) && (byte_val b0 <=? 239)) eqn:E3; [|lia].
  destruct (byte_val b0 =? 224) eqn:E4; destruct (byte_val b0 =? 237) eqn:E5;
    split_tests; reflexivity.
Qed.

Lemma decode_4 (b0 b1 b2 b3 : byte) (rest : bytes) :
  0xF0 <= byte_val b0 <= 0xF4 ->
  (if byte_val b0 =? 0xF0 then 0x90 else 0x80) <= byte_val b1
  <= (if byte_val b0 =? 0xF4 then 0x8F else 0xBF) ->
  0x80 <= byte_val b2 <= 0xBF ->
  0x80 <= byte_val b3 <= 0xBF ->
  Utf8.decode (b0 :: b1 :: b2 :: b3 :: rest)
  = option_map (cons ((byte_val b0 - 0xF0) * 262144
                      + (byte_val b1 - 0x80) * 4096
                      + (byte_val b2 - 0x80) * 64 + (byte_val b3 - 0x80)))
               (Utf8.decode rest).
Proof.
  intros H0 H1 H2 H3. cbn [Utf8.decode]. unfold Utf8.within, Utf8.cont.
  destruct (byte_val b0 <? 128) eqn:E1; [lia|].
  destruct ((194 <=? byte_val b0) && (byte_val b0 <=? 223)) eqn:E2; [lia|].
  destruct ((224 <=? byte_val b0) && (byte_val b0 <=? 239)) eqn:E3; [lia|].
  destruct ((240 <=? byte_val b0) && (byte_val b0 <=? 244)) eqn:E3'; [|lia].
  destruct (byte_val b0 =? 240) eqn:E4; destruct (byte_val b0 =? 244) eqn:E5;
    split_tests; reflexivity.
Qed.

Lemma some_inj {A} (x y : A) : Some x = Some y -> x = y.
Proof. congruence. Qed.

Lemma decode_encode_char (c : Z) (a rest : bytes) :
  Utf8.encode_char c = Some a ->
  Utf8.decode (a ++ rest) = option_map (cons c) (Utf8.decode rest).
Proof.
  unfold Utf8.encode_char.
  destruct (c <? 0) eqn:E0; [discriminate|].
  destruct (c <? 128) eqn:E1.
  { intros H. apply some_inj in H. subst a. change ([?x] ++ rest) with (x :: rest).
    rewrite decode_1; (rewrite byte_val_small by lia); [reflexivity | lia]. }
  destruct (c <? 2048) eqn:E2.
  { intros H. apply some_inj in H. subst a.
    assert (Hq : 2 <= c / 64 < 32) by divlia.
    assert (Hr : 0 <= c mod 64 < 64) by divlia.
    change ([?x; ?y] ++ rest) with (x :: y :: rest).
    rewrite decode_2; (rewrite !byte_val_small by lia); try lia.
    do 2 f_equal. divlia. }
  destruct (c <? 65536) eqn:E3.
  { destruct ((55296 <=? c) && (c <=? 57343)) eqn:Es; [discriminate|].
    intros H. apply some_inj in H. subst a.
    assert (Hq : 0 <= c / 4096 < 16) by divlia.
    assert (Hm : 0 <= (c / 64) mod 64 < 64) by divlia.
    assert (Hr : 0 <= c mod 64 < 64) by divlia.
    change ([?x; ?y; ?z] ++ rest) with (x :: y :: z :: rest).
    rewrite decode_3; (rewrite !byte_val_small by lia); try lia.
    - do 2 f_equal. divlia.
    - split_tests; divlia. }
  destruct (c <? 1114112) eqn:E4; [|discriminate].
  intros H. apply some_inj in H. subst a.
  assert (Hq : 0 <= c / 262144 < 5) by divlia.
  assert (Hm1 : 0 <= (c / 4096) mod 64 < 64) by divlia.
  assert (Hm : 0 <= (c / 64) mod 64 < 64) by divlia.
  assert (Hr : 0 <= c mod 64 < 64) by divlia.
  change ([?x; ?y; ?z; ?t] ++ rest) with (x :: y :: z :: t :: rest).
  rewrite decode_4; (rewrite !byte_val_small by lia); try lia.
  - do 2 f_equal. divlia.
  - split_tests; divlia.
Qed.

Lemma decode_encode (s : str) (b : bytes) :
  Utf8.encode s = Some b -> Utf8.decode b = Some s.
Proof.
  revert b. induction s as [|c s IH]; intros b; cbn [Utf8.encode].
  - intros H. inversion H. reflexivity.
  - destruct (Utf8.encode_char c) as [a|] eqn:Ec; [|discriminate].
    destruct (Utf8.encode s) as [b'|]; [|discriminate].
    intros H. apply some_inj in H. subst b.
    rewrite (decode_encode_char c a b' Ec), (IH b' eq_refl). reflexivity.
Qed.

(** ** The scenario of the specification, end to end *)

(** LIST is answered with the 12 bytes of "a.nsp\nb.xci\n", FILE_RANGE for
    [a.nsp], offset 2, size 4 with bytes 2 to 5 of the file found through
    the catalog, and EXIT ends the process. *)
Example two_roms_scenario :
  let run := poll_commands posix_joinpath two_roms_files 3 two_roms
                           (initial_world two_roms_session) in
  fst run = Raise (SystemExit 0)
  /\ usb_in (snd run) = []
  /\ usb_out (snd run)
     = [(ListResponse,
         MAGIC ++ [x01; x00; x00; x00] ++ [x03; x00; x00; x00]
               ++ [x0c; x00; x00; x00]);
        (ListPayload,
         [x61; x2e; x6e; x73; x70; x0a; x62; x2e; x78; x63; x69; x0a]);
        (FileRangeAck,
         MAGIC ++ [x02; x00; x00; x00] ++ [x02; x00; x00; x00]
               ++ [x15; x00; x00; x00]);
        (FileRangeResponse,
         MAGIC ++ [x01; x00; x00; x00] ++ [x02; x00; x00; x00]
               ++ [x04; x00; x00; x00]);
        (FileData, [x02; x03; x04; x05]);
        (ExitResponse, EXIT_RESPONSE)].
Proof. repeat split. Qed.

(** * Further properties *)

(** ** Runs only move the world on *)

Lemma later_refl (w : world) : later w w.
Proof. repeat split; exists []; now rewrite ?app_nil_r. Qed.

Lemma later_trans (w1 w2 w3 : world) :
  later w1 w2 -> later w2 w3 -> later w1 w3.
Proof.
  intros [[u1 Hu1] [[o1 Ho1] [l1 Hl1]]] [[u2 Hu2] [[o2 Ho2] [l2 Hl2]]].
  repeat split.
  - exists (u1 ++ u2). now rewrite Hu1, Hu2, app_assoc.
  - exists (o1 ++ o2). now rewrite Ho2, Ho1, app_assoc.
  - exists (l1 ++ l2). now rewrite Hl2, Hl1, app_assoc.
Qed.

Lemma later_input_length (w w' : world) :
  later w w' -> (List.length (usb_in w') <= List.length (usb_in w))%nat.
Proof. intros [[u Hu] _]. rewrite Hu, length_app. lia. Qed.

Lemma advances_ret {A} (a : A) : advances (ret a).
Proof. intros w. apply later_refl. Qed.

Lemma advances_raise {A} (e : exn) : advances (@raise A e).
Proof. intros w. apply later_refl. Qed.

Lemma advances_out_of_fuel {A} : advances (@out_of_fuel A).
Proof. intros w. apply later_refl. Qed.

Lemma advances_lift {A} (e : exn) (o : option A) : advances (lift e o).
Proof. destruct o; [apply advances_ret | apply advances_raise]. Qed.

Lemma advances_lift_result {A} (r : result A) : advances (lift_result r).
Proof. intros w. apply later_refl. Qed.

Lemma advances_log (l : level) (m : message) : advances (log_call l m).
Proof.
  intros w. repeat split; cbn.
  - exists []. reflexivity.
  - exists []. now rewrite app_nil_r.
  - eexists. reflexivity.
Qed.

Lemma advances_write (o : origin) (b : bytes) : advances (context_write o b).
Proof.
  intros w. repeat split; cbn.
  - exists []. reflexivity.
  - eexists. reflexivity.
  - exists []. now rewrite app_nil_r.
Qed.

Lemma advances_read (n : Z) : advances (context_read n).
Proof.
  intros w. unfold context_read.
  destruct (Z.to_nat n <=? List.length (usb_in w))%nat; [|apply later_refl].
  repeat split; cbn.
  - exists (firstn (Z.to_nat n) (usb_in w)). symmetry. apply firstn_skipn.
  - exists []. now rewrite app_nil_r.
  - exists []. now rewrite app_nil_r.
Qed.

Lemma advances_bind {A B} (c : M A) (k : A -> M B) :
  advances c -> (forall a, advances (k a)) -> advances (bind c k).
Proof.
  intros Hc Hk w. unfold bind. specialize (Hc w).
  destruct (c w) as [[a | e |] w']; cbn in Hc |- *; [|exact Hc|exact Hc].
  exact (later_trans _ _ _ Hc (Hk a w')).
Qed.

Create HintDb advances discriminated.
#[local] Hint Resolve advances_ret advances_raise advances_out_of_fuel
  advances_lift advances_lift_result advances_log advances_write
  advances_read advances_bind : advances.

Lemma advances_read_ack : advances read_ack.
Proof. unfold read_ack. auto 20 with advances. Qed.

Lemma advances_stream_range (fuel : nat) (f : file) (curr_off rem : Z) :
  advances (stream_range fuel f curr_off rem).
Proof.
  revert f curr_off rem. induction fuel as [|fuel IH]; intros f c rem;
    cbn [stream_range]; destruct (rem >? 0); auto with advances.
  destruct (file_read f (Z.min BUFFER_SEGMENT_DATA_SIZE rem)) as [buf f'].
  destruct buf; auto with advances.
Qed.

Lemma advances_for_each {A S} (l : list A) (body : A -> S -> M S) (s : S) :
  (forall x s', advances (body x s')) -> advances (for_each l body s).
Proof.
  intros Hbody. revert s. induction l as [|x l IH]; intros s;
    cbn [for_each]; auto with advances.
Qed.

#[local] Hint Resolve advances_read_ack advances_stream_range
  advances_for_each : advances.

Lemma advances_send_file_range (data : bytes) (offset size : Z) :
  advances (send_file_range data offset size).
Proof.
  unfold send_file_range, file_seek.
  destruct (offset <? 2 ^ 63); auto with advances.
Qed.

Lemma advances_process_exit_command : advances process_exit_command.
Proof. unfold process_exit_command. auto 20 with advances. Qed.

Lemma advances_process_file_range_command
      (open_rb : str -> option bytes) (data_size : Z)
      (cache : option OrderedDict.t) :
  advances (process_file_range_command open_rb data_size cache).
Proof.
  unfold process_file_range_command.
  pose proof advances_send_file_range. auto 30 with advances.
Qed.

Lemma advances_collect_roms (joinpath : str -> str -> str) (top : dirtree) :
  advances (collect_roms joinpath top).
Proof.
  unfold collect_roms. apply advances_for_each.
  intros [dirName fileList] c. cbn [collect_directory].
  apply advances_bind; [apply advances_log | intros _].
  apply advances_for_each. intros filename c'.
  unfold collect_file. destruct (is_rom filename); auto with advances.
Qed.

Lemma advances_process_list_command
      (joinpath : str -> str -> str) (top : dirtree) :
  advances (process_list_command joinpath top).
Proof.
  unfold process_list_command, send_rom_list.
  pose proof (advances_collect_roms joinpath top). auto 30 with advances.
Qed.

Lemma advances_poll_loop
      (joinpath : str -> str -> str) (open_rb : str -> option bytes)
      (fuel : nat) (top : dirtree) (cmd_cache : option OrderedDict.t) :
  advances (poll_loop joinpath open_rb fuel top cmd_cache).
Proof.
  revert cmd_cache. induction fuel as [|fuel IH]; intros cmd_cache;
    cbn [poll_loop]; [apply advances_out_of_fuel|].
  apply advances_bind; [apply advances_read | intros h].
  pose proof advances_process_exit_command.
  pose proof (advances_process_list_command joinpath top).
  pose proof (advances_process_file_range_command open_rb).
  destruct (decode_header h) as [| t i s |]; auto with advances.
  apply advances_bind; [apply advances_log | intros _].
  destruct (i =? CommandID.EXIT); [auto with advances|].
  destruct (i =? CommandID.LIST); [auto with advances|].
  destruct (i =? CommandID.FILE_RANGE); auto 10 with advances.
Qed.


(** ** The command loop ends, and only by an exception *)

Lemma never_returns_raise {A} (e : exn) : never_returns (@raise A e).
Proof. intros w a. discriminate. Qed.

Lemma never_returns_out_of_fuel {A} : never_returns (@out_of_fuel A).
Proof. intros w a. discriminate. Qed.

Lemma never_returns_bind {A B} (c : M A) (k : A -> M B) :
  (forall a, never_returns (k a)) -> never_returns (bind c k).
Proof.
  intros Hk w b. unfold bind.
  destruct (c w) as [[a | e |] w']; cbn; [apply Hk | discriminate ..].
Qed.

Lemma never_returns_poll_loop
      (joinpath : str -> str -> str) (open_rb : str -> option bytes)
      (fuel : nat) (top : dirtree) (cmd_cache : option OrderedDict.t) :
  never_returns (poll_loop joinpath open_rb fuel top cmd_cache).
Proof.
  revert cmd_cache. induction fuel as [|fuel IH]; intros cmd_cache;
    cbn [poll_loop]; [apply never_returns_out_of_fuel|].
  apply never_returns_bind. intros h.
  destruct (decode_header h) as [| t i s |];
    [apply IH | | apply never_returns_raise].
  apply never_returns_bind. intros _.
  destruct (i =? CommandID.EXIT);
    [apply never_returns_bind; intros _; apply IH|].
  destruct (i =? CommandID.LIST);
    [apply never_returns_bind; intros c; apply IH|].
  destruct (i =? CommandID.FILE_RANGE);
    [apply never_returns_bind; intros _; apply IH|].
  apply never_returns_bind. intros _.
  apply never_returns_bind. intros _. apply IH.
Qed.

Lemma finishes_ret {A} (a : A) : finishes (ret a).
Proof. intros w. discriminate. Qed.

Lemma finishes_raise {A} (e : exn) : finishes (@raise A e).
Proof. intros w. discriminate. Qed.

Lemma finishes_lift {A} (e : exn) (o : option A) : finishes (lift e o).
Proof. destruct o; [apply finishes_ret | apply finishes_raise]. Qed.

Lemma finishes_log (l : level) (m : message) : finishes (log_call l m).
Proof. intros w. discriminate. Qed.

Lemma finishes_write (o : origin) (b : bytes) : finishes (context_write o b).
Proof. intros w. discriminate. Qed.

Lemma finishes_read (n : Z) : finishes (context_read n).
Proof.
  intros w. unfold context_read.
  destruct (Z.to_nat n <=? List.length (usb_in w))%nat; discriminate.
Qed.

Lemma finishes_bind {A B} (c : M A) (k : A -> M B) :
  finishes c -> (forall a, finishes (k a)) -> finishes (bind c k).
Proof.
  intros Hc Hk w. unfold bind. specialize (Hc w).
  destruct (c w) as [[a | e |] w']; cbn in Hc |- *;
    [apply Hk | discriminate | contradiction].
Qed.

Create HintDb finishes discriminated.
#[local] Hint Resolve finishes_ret finishes_raise finishes_lift finishes_log
  finishes_write finishes_read finishes_bind : finishes.

Lemma finishes_read_ack : finishes read_ack.
Proof. unfold read_ack. auto 20 with finishes. Qed.

(** The fuel [process_file_range_command] gives the loop is enough. *)
Lemma finishes_stream_range (fuel : nat) (f : file) (curr_off rem : Z) :
  (Z.to_nat rem <= fuel)%nat ->
  finishes (stream_range fuel f curr_off rem).
Proof.
  revert f curr_off rem. induction fuel as [|fuel IH]; intros f c rem Hfuel;
    cbn [stream_range]; destruct (rem >? 0) eqn:G;
    try apply finishes_ret.
  - rewrite Z.gtb_ltb in G. apply Z.ltb_lt in G. lia.
  - rewrite Z.gtb_ltb in G. apply Z.ltb_lt in G.
    destruct (file_read f (Z.min BUFFER_SEGMENT_DATA_SIZE rem)) as [buf f'].
    destruct buf; [apply finishes_log|].
    apply finishes_bind; [apply finishes_write | intros _].
    apply IH. unfold BUFFER_SEGMENT_DATA_SIZE. lia.
Qed.

Lemma finishes_for_each {A S} (l : list A) (body : A -> S -> M S) (s : S) :
  (forall x s', finishes (body x s')) -> finishes (for_each l body s).
Proof.
  intros Hbody. revert s. induction l as [|x l IH]; intros s;
    cbn [for_each]; auto with finishes.
Qed.

#[local] Hint Resolve finishes_read_ack finishes_for_each : finishes.

Lemma finishes_process_exit_command : finishes process_exit_command.
Proof. unfold process_exit_command. auto 20 with finishes. Qed.

Lemma finishes_process_file_range_command
      (open_rb : str -> option bytes) (data_size : Z)
      (cache : option OrderedDict.t) :
  finishes (process_file_range_command open_rb data_size cache).
Proof.
  unfold process_file_range_command.
  assert (Hsend : forall data offset size,
             finishes (send_file_range data offset size)).
  { intros data offset size. unfold send_file_range, file_seek.
    destruct (offset <? 2 ^ 63); [|intros w; discriminate].
    apply finishes_bind; [apply finishes_ret | intros f].
    apply finishes_stream_range. lia. }
  assert (Hparse : forall b, finishes (lift_result (parse_file_range b))).
  { intros b w. unfold lift_result, parse_file_range. cbn [fst].
    destruct (Struct.unpack_I (slice 0 4 b)); [|discriminate].
    destruct (Struct.unpack_Q (slice 4 12 b)); [|discriminate].
    destruct (Struct.unpack_I (slice 12 16 b)); [|discriminate].
    destruct (Utf8.decode (slice_from 16 b)); discriminate. }
  auto 30 with finishes.
Qed.

Lemma finishes_process_list_command
      (joinpath : str -> str -> str) (top : dirtree) :
  finishes (process_list_command joinpath top).
Proof.
  unfold process_list_command, send_rom_list.
  assert (Hcollect : finishes (collect_roms joinpath top)).
  { unfold collect_roms. apply finishes_for_each.
    intros [dirName fileList] c. cbn [collect_directory].
    apply finishes_bind; [apply finishes_log | intros _].
    apply finishes_for_each. intros filename c'.
    unfold collect_file. destruct (is_rom filename); auto with finishes. }
  auto 30 with finishes.
Qed.

Lemma poll_loop_has_enough_fuel
      (joinpath : str -> str -> str) (open_rb : str -> option bytes)
      (fuel : nat) (top : dirtree) :
  forall (cmd_cache : option OrderedDict.t) (w : world),
    (List.length (usb_in w) < 16 * fuel)%nat ->
    fst (poll_loop joinpath open_rb fuel top cmd_cache w) <> OutOfFuel.
Proof.
  induction fuel as [|fuel IH]; intros cmd_cache w Hlen; [lia|].
  cbn [poll_loop]. unfold bind at 1.
  pose proof (advances_read 16 w) as Hread.
  unfold context_read in *.
  destruct (Z.to_nat 16 <=? List.length (usb_in w))%nat eqn:E;
    [|discriminate].
  apply Nat.leb_le in E. change (Z.to_nat 16) with 16%nat in *.
  set (w1 := mkWorld (skipn 16 (usb_in w)) (usb_out w) (log w)) in *.
  assert (Hlen1 : (List.length (usb_in w1) < 16 * fuel)%nat).
  { unfold w1. cbn [usb_in]. rewrite length_skipn. lia. }
  destruct (decode_header (firstn 16 (usb_in w))) as [| t i s |];
    [now apply IH | | discriminate].
  unfold bind at 1. cbn [log_call].
  set (w2 := mkWorld (usb_in w1) (usb_out w1) _).
  assert (Hlen2 : (List.length (usb_in w2) < 16 * fuel)%nat) by exact Hlen1.
  clearbody w2. clear Hread.
  assert (Hnext : forall {A} (c : M A) (k : A -> M unit),
             finishes c -> advances c ->
             (forall a w', (List.length (usb_in w') < 16 * fuel)%nat ->
                           fst (k a w') <> OutOfFuel) ->
             fst (bind c k w2) <> OutOfFuel).
  { intros A c k Hfin Hadv Hk. unfold bind.
    specialize (Hfin w2). specialize (Hadv w2).
    apply later_input_length in Hadv.
    destruct (c w2) as [[a | e |] w3]; cbn in *;
      [apply Hk; lia | discriminate | contradiction]. }
  destruct (i =? CommandID.EXIT).
  { apply Hnext; [apply finishes_process_exit_command
                 | apply advances_process_exit_command
                 | intros _ w' Hw'; now apply IH]. }
  destruct (i =? CommandID.LIST).
  { apply Hnext; [apply finishes_process_list_command
                 | apply advances_process_list_command
                 | intros c w' Hw'; now apply IH]. }
  destruct (i =? CommandID.FILE_RANGE).
  { apply Hnext; [apply finishes_process_file_range_command
                 | apply advances_process_file_range_command
                 | intros _ w' Hw'; now apply IH]. }
  apply Hnext; [apply finishes_log | apply advances_log |].
  intros _ w' Hw'. unfold bind.
  rewrite process_exit_command_run. discriminate.
Qed.

(** X3. The command loop has no way to return: whatever it is sent and
    however many turns it gets, it has raised or is still running. Given
    more turns than the input has blocks of 16 bytes, it has come to an end
    by raising: [SystemExit] after an EXIT or unknown command, or the
    exception of a read, a handler or the transport. *)
Theorem command_loop_ends_by_raising
        (joinpath : str -> str -> str) (open_rb : str -> option bytes)
        (fuel : nat) (work_dir_path : dirtree) (w : world) :
  let run := poll_commands joinpath open_rb fuel work_dir_path w in
  (forall a, fst run <> Ok a)
  /\ ((List.length (usb_in w) < 16 * fuel)%nat ->
      exists e, fst run = Raise e).
Proof.
  intros run. subst run. unfold poll_commands, bind. cbn [log_call].
  match goal with
  | |- context [poll_loop _ _ _ _ _ ?W] =>
    pose proof (never_returns_poll_loop joinpath open_rb fuel
                  work_dir_path None W) as Hret;
      pose proof (poll_loop_has_enough_fuel joinpath open_rb fuel
                    work_dir_path None W) as Hfuel;
      cbn [usb_in] in Hfuel;
      destruct (fst (poll_loop joinpath open_rb fuel work_dir_path None W))
      as [a | e |]
  end.
  - exfalso. exact (Hret a eq_refl).
  - split; [discriminate|]. intros _. exists e. reflexivity.
  - split; [discriminate|]. intros Hlen. exfalso. now apply Hfuel.
Qed.

Lemma command_loop_ends_by_raising_witness :
  exists e,
    fst (poll_commands posix_joinpath two_roms_files 7 two_roms
                       (initial_world two_roms_session)) = Raise e.
Proof.
  apply (proj2 (command_loop_ends_by_raising posix_joinpath two_roms_files 7
                  two_roms (initial_world two_roms_session))).
  cbn. lia.
Defined.

(** ** The log has no influence on the protocol *)

Lemma same_io_refl (w : world) : same_io w w.
Proof. split; reflexivity. Qed.

Lemma log_blind_ret {A} (a : A) : log_blind (ret a).
Proof. intros w1 w2 H. split; [reflexivity | exact H]. Qed.

Lemma log_blind_raise {A} (e : exn) : log_blind (@raise A e).
Proof. intros w1 w2 H. split; [reflexivity | exact H]. Qed.

Lemma log_blind_out_of_fuel {A} : log_blind (@out_of_fuel A).
Proof. intros w1 w2 H. split; [reflexivity | exact H]. Qed.

Lemma log_blind_lift {A} (e : exn) (o : option A) : log_blind (lift e o).
Proof. destruct o; [apply log_blind_ret | apply log_blind_raise]. Qed.

Lemma log_blind_lift_result {A} (r : result A) : log_blind (lift_result r).
Proof. intros w1 w2 H. split; [reflexivity | exact H]. Qed.

Lemma log_blind_log (l : level) (m : message) : log_blind (log_call l m).
Proof. intros w1 w2 H. split; [reflexivity | exact H]. Qed.

(** Two different records may be logged: the endpoints do not see it. *)
Lemma log_blind_log_any (l l' : level) (m m' : message) (w1 w2 : world) :
  same_io w1 w2 ->
  same_io (snd (log_call l m w1)) (snd (log_call l' m' w2)).
Proof. intros H. exact H. Qed.

Lemma log_blind_write (o : origin) (b : bytes) : log_blind (context_write o b).
Proof.
  intros w1 w2 [Hin Hout]. split; [reflexivity|].
  split; cbn; [exact Hin | now rewrite Hout].
Qed.

Lemma log_blind_read (n : Z) : log_blind (context_read n).
Proof.
  intros w1 w2 [Hin Hout]. unfold context_read. rewrite Hin.
  destruct (Z.to_nat n <=? List.length (usb_in w2))%nat; cbn.
  - split; [reflexivity|]. split; cbn; [reflexivity | exact Hout].
  - split; [reflexivity|]. split; assumption.
Qed.

Lemma log_blind_bind {A B} (c : M A) (k : A -> M B) :
  log_blind c -> (forall a, log_blind (k a)) -> log_blind (bind c k).
Proof.
  intros Hc Hk w1 w2 H. unfold bind.
  destruct (Hc w1 w2 H) as [Hres Hio].
  destruct (c w1) as [[a1 | e1 |] w1'], (c w2) as [[a2 | e2 |] w2'];
    cbn in Hres, Hio |- *; try discriminate Hres.
  - injection Hres as ->. exact (Hk a2 w1' w2' Hio).
  - injection Hres as ->. split; [reflexivity | exact Hio].
  - split; [reflexivity | exact Hio].
Qed.

Create HintDb log_blind discriminated.
#[local] Hint Resolve log_blind_ret log_blind_raise log_blind_out_of_fuel
  log_blind_lift log_blind_lift_result log_blind_log log_blind_write
  log_blind_read log_blind_bind : log_blind.

Lemma log_blind_read_ack : log_blind read_ack.
Proof. unfold read_ack. auto 20 with log_blind. Qed.

Lemma log_blind_stream_range (fuel : nat) (f : file) (curr_off rem : Z) :
  log_blind (stream_range fuel f curr_off rem).
Proof.
  revert f curr_off rem. induction fuel as [|fuel IH]; intros f c rem;
    cbn [stream_range]; destruct (rem >? 0); auto with log_blind.
  destruct (file_read f (Z.min BUFFER_SEGMENT_DATA_SIZE rem)) as [buf f'].
  destruct buf; auto with log_blind.
Qed.

Lemma log_blind_for_each {A S} (l : list A) (body : A -> S -> M S) (s : S) :
  (forall x s', log_blind (body x s')) -> log_blind (for_each l body s).
Proof.
  intros Hbody. revert s. induction l as [|x l IH]; intros s;
    cbn [for_each]; auto with log_blind.
Qed.

#[local] Hint Resolve log_blind_read_ack log_blind_stream_range
  log_blind_for_each : log_blind.

Lemma log_blind_process_exit_command : log_blind process_exit_command.
Proof. unfold process_exit_command. auto 20 with log_blind. Qed.

Lemma log_blind_process_file_range_command
      (open_rb : str -> option bytes) (data_size : Z)
      (cache : option OrderedDict.t) :
  log_blind (process_file_range_command open_rb data_size cache).
Proof.
  unfold process_file_range_command.
  assert (Hsend : forall data offset size,
             log_blind (send_file_range data offset size)).
  { intros data offset size. unfold send_file_range, file_seek.
    destruct (offset <? 2 ^ 63); auto with log_blind. }
  auto 30 with log_blind.
Qed.

Lemma log_blind_process_list_command
      (joinpath : str -> str -> str) (top : dirtree) :
  log_blind (process_list_command joinpath top).
Proof.
  unfold process_list_command, send_rom_list.
  assert (Hcollect : log_blind (collect_roms joinpath top)).
  { unfold collect_roms. apply log_blind_for_each.
    intros [dirName fileList] c. cbn [collect_directory].
    apply log_blind_bind; [apply log_blind_log | intros _].
    apply log_blind_for_each. intros filename c'.
    unfold collect_file. destruct (is_rom filename); auto with log_blind. }
  auto 30 with log_blind.
Qed.

Lemma log_blind_poll_loop
      (joinpath : str -> str -> str) (open_rb : str -> option bytes)
      (fuel : nat) (top : dirtree) (cmd_cache : option OrderedDict.t) :
  log_blind (poll_loop joinpath open_rb fuel top cmd_cache).
Proof.
  revert cmd_cache. induction fuel as [|fuel IH]; intros cmd_cache;
    cbn [poll_loop]; [apply log_blind_out_of_fuel|].
  apply log_blind_bind; [apply log_blind_read | intros h].
  pose proof log_blind_process_exit_command.
  pose proof (log_blind_process_list_command joinpath top).
  pose proof (log_blind_process_file_range_command open_rb).
  destruct (decode_header h) as [| t i s |]; auto with log_blind.
  apply log_blind_bind; [apply log_blind_log | intros _].
  destruct (i =? CommandID.EXIT); [auto with log_blind|].
  destruct (i =? CommandID.LIST); [auto with log_blind|].
  destruct (i =? CommandID.FILE_RANGE); auto 10 with log_blind.
Qed.

(** One turn of the loop on a header: the debug record, then the
    dispatch on the command id. *)
Lemma poll_loop_on_header
      (joinpath : str -> str -> str) (open_rb : str -> option bytes)
      (fuel : nat) (top : dirtree) (cmd_cache : option OrderedDict.t)
      (h rest : bytes) out lg (cmd_type cmd_id data_size : Z) :
  List.length h = 16%nat ->
  decode_header h = Header cmd_type cmd_id data_size ->
  poll_loop joinpath open_rb (S fuel) top cmd_cache
            (mkWorld (h ++ rest) out lg)
  = (if cmd_id =? CommandID.EXIT then
       process_exit_command ;;
       poll_loop joinpath open_rb fuel top cmd_cache
     else if cmd_id =? CommandID.LIST then
       cmd_cache' <- process_list_command joinpath top ;;
       poll_loop joinpath open_rb fuel top (Some cmd_cache')
     else if cmd_id =? CommandID.FILE_RANGE then
       process_file_range_command open_rb data_size cmd_cache ;;
       poll_loop joinpath open_rb fuel top cmd_cache
     else
       log_call WARNING (MsgUnknownCommandId cmd_id) ;;
       process_exit_command ;;
       poll_loop joinpath open_rb fuel top cmd_cache)
      (mkWorld rest out (lg ++ [(DEBUG, MsgCmd cmd_type cmd_id data_size)])).
Proof.
  intros Hlen Hd. cbn [poll_loop]. unfold bind at 1.
  rewrite (context_read_exact 16 h rest) by exact Hlen.
  rewrite Hd. reflexivity.
Qed.

(** X4. What the command loop reads and writes does not depend on what has been
    logged, and of an incoming header only the command id counts, with the
    size for FILE_RANGE: two headers that differ in the command type, or in
    the size of a command other than FILE_RANGE, lead to the same outcome,
    the same blocks written and the same input left. *)
Theorem incoming_type_and_size_are_ignored
        (joinpath : str -> str -> str) (open_rb : str -> option bytes)
        (fuel : nat) (work_dir_path : dirtree)
        (cmd_cache : option OrderedDict.t)
        (h h' rest : bytes) out lg lg'
        (cmd_type cmd_type' cmd_id data_size data_size' : Z) :
  List.length h = 16%nat -> List.length h' = 16%nat ->
  decode_header h = Header cmd_type cmd_id data_size ->
  decode_header h' = Header cmd_type' cmd_id data_size' ->
  (cmd_id = CommandID.FILE_RANGE -> data_size = data_size') ->
  let run := poll_loop joinpath open_rb (S fuel) work_dir_path cmd_cache
                       (mkWorld (h ++ rest) out lg) in
  let run' := poll_loop joinpath open_rb (S fuel) work_dir_path cmd_cache
                        (mkWorld (h' ++ rest) out lg') in
  fst run = fst run' /\ same_io (snd run) (snd run').
Proof.
  intros Hlen Hlen' Hd Hd' Hsize run run'. subst run run'.
  rewrite (poll_loop_on_header _ _ _ _ _ h rest out lg _ _ _ Hlen Hd).
  rewrite (poll_loop_on_header _ _ _ _ _ h' rest out lg' _ _ _ Hlen' Hd').
  assert (Hio : same_io (mkWorld rest out
                                 (lg ++ [(DEBUG, MsgCmd cmd_type cmd_id
                                                        data_size)]))
                        (mkWorld rest out
                                 (lg' ++ [(DEBUG, MsgCmd cmd_type' cmd_id
                                                         data_size')])))
    by (split; reflexivity).
  revert Hio. generalize (mkWorld rest out
                            (lg ++ [(DEBUG, MsgCmd cmd_type cmd_id
                                                   data_size)])).
  generalize (mkWorld rest out
                (lg' ++ [(DEBUG, MsgCmd cmd_type' cmd_id data_size')])).
  intros w2 w1 Hio.
  pose proof log_blind_process_exit_command as Hexit.
  pose proof (log_blind_process_list_command joinpath work_dir_path) as Hlist.
  pose proof (log_blind_process_file_range_command open_rb) as Hrange.
  pose proof (log_blind_poll_loop joinpath open_rb fuel work_dir_path)
    as Hloop.
  destruct (cmd_id =? CommandID.EXIT);
    [apply log_blind_bind; auto with log_blind|].
  destruct (cmd_id =? CommandID.LIST);
    [apply log_blind_bind; auto with log_blind|].
  destruct (cmd_id =? CommandID.FILE_RANGE) eqn:E.
  - apply Z.eqb_eq in E. rewrite <- (Hsize E).
    apply log_blind_bind; auto with log_blind.
  - apply log_blind_bind; auto 10 with log_blind.
Qed.

Lemma incoming_type_and_size_are_ignored_witness :
  let run := poll_loop posix_joinpath two_roms_files 1 two_roms None
                       (mkWorld (header_bytes 0 3 0 ++ EXIT_RESPONSE) [] []) in
  let run' := poll_loop posix_joinpath two_roms_files 1 two_roms None
                        (mkWorld (header_bytes 2 3 5 ++ EXIT_RESPONSE) []
                                 [(INFO, MsgEnteringCommandLoop)]) in
  fst run = fst run' /\ same_io (snd run) (snd run').
Proof.
  apply (incoming_type_and_size_are_ignored posix_joinpath two_roms_files
           0 two_roms None (header_bytes 0 3 0) (header_bytes 2 3 5)
           EXIT_RESPONSE [] [] [(INFO, MsgEnteringCommandLoop)] 0 2 3 0 5);
    try reflexivity.
  intros H. discriminate H.
Defined.

(** ** FILE_RANGE, the whole handler *)

Lemma parse_file_range_short (payload : bytes) :
  (List.length payload < 16)%nat ->
  parse_file_range payload = Raise StructError.
Proof.
  intros H.
  do 16 (destruct payload as [|? payload]; [reflexivity|]).
  cbn [List.length] in H. lia.
Qed.

Lemma parse_file_range_long (payload : bytes) :
  (16 <= List.length payload)%nat ->
  parse_file_range payload
  = match Utf8.decode (skipn 16 payload) with
    | Some name =>
      Ok (mkRangeRequest (Struct.of_le (firstn 4 payload))
                         (Struct.of_le (firstn 8 (skipn 4 payload)))
                         (Struct.of_le (firstn 4 (skipn 12 payload)))
                         name)
    | None => Raise UnicodeDecodeError
    end.
Proof. intros H. do 16 take_bytes H payload. reflexivity. Qed.

Lemma parse_file_range_ok (payload : bytes) (req : RangeRequest) :
  parse_file_range payload = Ok req ->
  (16 <= List.length payload)%nat
  /\ 0 <= range_size req <= Struct.U32_MAX
  /\ 0 <= range_offset req <= Struct.U64_MAX
  /\ Utf8.decode (skipn 16 payload) = Some (nsp_name req).
Proof.
  intros H.
  destruct (Nat.lt_ge_cases (List.length payload) 16) as [Hs | Hl].
  { rewrite parse_file_range_short in H by exact Hs. discriminate. }
  split; [exact Hl|].
  rewrite (parse_file_range_long payload Hl) in H.
  destruct (Utf8.decode (skipn 16 payload)) as [name|]; [|discriminate].
  assert (Hreq : req = mkRangeRequest
                         (Struct.of_le (firstn 4 payload))
                         (Struct.of_le (firstn 8 (skipn 4 payload)))
                         (Struct.of_le (firstn 4 (skipn 12 payload))) name)
    by congruence.
  rewrite Hreq. cbn [range_size range_offset nsp_name].
  split; [|split; [|reflexivity]].
  - apply of_le_u32. apply firstn_length_le. lia.
  - apply of_le_u64. apply firstn_length_le. rewrite length_skipn. lia.
Qed.

Lemma read_ack_exact (ack rest : bytes) out lg :
  List.length ack = 16%nat ->
  read_ack (mkWorld (ack ++ rest) out lg)
  = (Ok tt,
     mkWorld rest out
             (lg ++ [(DEBUG, MsgCmd (Struct.of_le (slice 4 8 ack))
                                    (Struct.of_le (slice 8 12 ack))
                                    (Struct.of_le (slice 12 16 ack)));
                     (DEBUG, MsgAck)])).
Proof.
  intros H. unfold read_ack.
  rewrite (bind_ok _ _ _ _ _ (context_read_exact 16 ack rest out lg H)).
  do 16 take_bytes H ack. destruct ack; [|discriminate].
  unfold bind, lift, ret, log_call. cbn [usb_in usb_out log].
  cbn [slice skipn firstn Nat.sub Struct.unpack_I List.length Nat.eqb].
  now rewrite <- app_assoc.
Qed.

(** The handler up to the opening of the file: the ACK header, the payload
    read and parsed, the RESPONSE header, the ACK read back. *)
Lemma process_file_range_command_run
      (open_rb : str -> option bytes) (data_size : Z)
      (cache : option OrderedDict.t) (payload ack rest : bytes) out lg
      (req : RangeRequest) :
  0 <= data_size <= Struct.U32_MAX ->
  List.length payload = Z.to_nat data_size ->
  List.length ack = 16%nat ->
  parse_file_range payload = Ok req ->
  process_file_range_command open_rb data_size cache
    (mkWorld (payload ++ ack ++ rest) out lg)
  = (data <- lift OSError (open_rb (resolve_name cache (nsp_name req))) ;;
     send_file_range data (range_offset req) (range_size req))
      (mkWorld rest
         (out ++ [(FileRangeAck,
                   header_bytes CommandType.ACK CommandID.FILE_RANGE
                                data_size);
                  (FileRangeResponse,
                   header_bytes CommandType.RESPONSE CommandID.FILE_RANGE
                                (range_size req))])
         (lg ++ [(INFO, MsgFileRange);
                 (INFO, MsgRange (range_size req) (range_offset req)
                                 (nsp_name_len req)
                                 (resolve_name cache (nsp_name req)));
                 (DEBUG, MsgCmd (Struct.of_le (slice 4 8 ack))
                                (Struct.of_le (slice 8 12 ack))
                                (Struct.of_le (slice 12 16 ack)));
                 (DEBUG, MsgAck)])).
Proof.
  intros Hsize Hpayload Hack Hparse.
  destruct (parse_file_range_ok payload req Hparse) as [_ [Hrs _]].
  unfold process_file_range_command.
  unfold bind at 1. cbn [log_call usb_in usb_out log].
  rewrite encode_header_some
    by (unfold CommandType.ACK, CommandID.FILE_RANGE, Struct.U32_MAX in *;
        lia).
  rewrite bind_lift_some.
  unfold bind at 1. cbn [context_write usb_in usb_out log].
  rewrite (bind_ok _ _ _ _ _
             (context_read_exact data_size payload (ack ++ rest) _ _
                                 Hpayload)).
  rewrite Hparse. unfold bind at 1. cbn [lift_result].
  unfold bind at 1. cbn [log_call usb_in usb_out log].
  rewrite encode_header_some
    by (unfold CommandType.RESPONSE, CommandID.FILE_RANGE, Struct.U32_MAX in *;
        lia).
  rewrite bind_lift_some.
  unfold bind at 1. cbn [context_write usb_in usb_out log].
  rewrite (bind_ok _ _ _ _ _ (read_ack_exact ack rest _ _ Hack)).
  unfold header_bytes. rewrite <- !app_assoc. reflexivity.
Qed.

(** X7. A FILE_RANGE request for a range that lies within the file it names is
    answered in full: the ACK header with the size of the payload, the
    RESPONSE header with the range size, then the bytes of the file from the
    offset on, range size many of them, in blocks of 1 byte to 1 MiB. The
    ACK read in between may be any 16 bytes, and what the peer sent after it
    is left unread. *)
Theorem file_range_within_file_is_served
        (open_rb : str -> option bytes) (data_size : Z)
        (cache : option OrderedDict.t) (payload ack rest data : bytes)
        out lg (req : RangeRequest) :
  0 <= data_size <= Struct.U32_MAX ->
  List.length payload = Z.to_nat data_size ->
  List.length ack = 16%nat ->
  parse_file_range payload = Ok req ->
  open_rb (resolve_name cache (nsp_name req)) = Some data ->
  range_offset req + range_size req <= Z.of_nat (List.length data) ->
  range_offset req < 2 ^ 63 ->
  exists (chunks : list bytes) lg',
    process_file_range_command open_rb data_size cache
      (mkWorld (payload ++ ack ++ rest) out lg)
    = (Ok tt,
       mkWorld rest
         ((out ++ [(FileRangeAck,
                    header_bytes CommandType.ACK CommandID.FILE_RANGE
                                 data_size);
                   (FileRangeResponse,
                    header_bytes CommandType.RESPONSE CommandID.FILE_RANGE
                                 (range_size req))])
          ++ file_data chunks)
         (lg ++ lg'))
    /\ List.concat chunks
       = firstn (Z.to_nat (range_size req))
                (skipn (Z.to_nat (range_offset req)) data)
    /\ Z.of_nat (List.length (List.concat chunks)) = range_size req
    /\ Forall chunk_sized chunks
    /\ ~ In (WARNING, MsgUnexpectedEOF) lg'.
Proof.
  intros Hsize Hpayload Hack Hparse Hopen Hin Hoff.
  destruct (parse_file_range_ok payload req Hparse) as [_ [Hrs [Hro _]]].
  rewrite (process_file_range_command_run open_rb data_size cache payload ack
             rest out lg req Hsize Hpayload Hack Hparse).
  rewrite Hopen, bind_lift_some.
  match goal with
  | |- context [send_file_range _ _ _ ?W] =>
    destruct (range_within_file data (range_offset req) (range_size req) W)
      as [chunks [Hrun [Hcat [Hlen Hsz]]]]; [lia | lia | lia |]
  end.
  cbn [usb_in usb_out log] in Hrun.
  exists chunks. eexists. rewrite Hrun.
  split; [reflexivity|]. split; [exact Hcat|]. split; [exact Hlen|].
  split; [exact Hsz|].
  intros [H | [H | [H | [H | []]]]]; discriminate H.
Qed.

Lemma file_range_within_file_is_served_witness :
  exists (chunks : list bytes) lg',
    process_file_range_command two_roms_files 21
      (Some [(lit "a.nsp", lit "/roms/a.nsp")])
      (mkWorld (example_payload ++ EXIT_RESPONSE ++ []) [] [])
    = (Ok tt,
       mkWorld []
         (([] ++ [(FileRangeAck,
                   header_bytes CommandType.ACK CommandID.FILE_RANGE 21);
                  (FileRangeResponse,
                   header_bytes CommandType.RESPONSE CommandID.FILE_RANGE
                                (range_size (mkRangeRequest 4 2 0
                                               (lit "a.nsp"))))])
          ++ file_data chunks)
         ([] ++ lg'))
    /\ List.concat chunks
       = firstn (Z.to_nat (range_size (mkRangeRequest 4 2 0 (lit "a.nsp"))))
                (skipn (Z.to_nat (range_offset
                                    (mkRangeRequest 4 2 0 (lit "a.nsp"))))
                       [x00; x01; x02; x03; x04; x05; x06; x07; x08; x09])
    /\ Z.of_nat (List.length (List.concat chunks))
       = range_size (mkRangeRequest 4 2 0 (lit "a.nsp"))
    /\ Forall chunk_sized chunks
    /\ ~ In (WARNING, MsgUnexpectedEOF) lg'.
Proof.
  apply (file_range_within_file_is_served two_roms_files 21
           (Some [(lit "a.nsp", lit "/roms/a.nsp")])
           example_payload EXIT_RESPONSE []
           [x00; x01; x02; x03; x04; x05; x06; x07; x08; x09] [] []
           (mkRangeRequest 4 2 0 (lit "a.nsp")));
    try reflexivity; cbn; unfold Struct.U32_MAX; lia.
Defined.





(** X11. A FILE_RANGE payload the handler cannot parse makes it raise with the
    ACK header as the only block written: [struct.error] for a payload of
    fewer than 16 bytes, [UnicodeDecodeError] for a name that is not
    UTF-8. The payload has been taken from the input, and no RESPONSE
    header follows. *)
Theorem malformed_request_raises_after_ack
        (open_rb : str -> option bytes) (data_size : Z)
        (cache : option OrderedDict.t) (payload rest : bytes) out lg :
  0 <= data_size <= Struct.U32_MAX ->
  List.length payload = Z.to_nat data_size ->
  (List.length payload < 16)%nat \/ Utf8.decode (skipn 16 payload) = None ->
  process_file_range_command open_rb data_size cache
    (mkWorld (payload ++ rest) out lg)
  = (Raise (if (List.length payload <? 16)%nat
            then StructError else UnicodeDecodeError),
     mkWorld rest
       (out ++ [(FileRangeAck,
                 header_bytes CommandType.ACK CommandID.FILE_RANGE
                              data_size)])
       (lg ++ [(INFO, MsgFileRange)])).
Proof.
  intros Hsize Hpayload Hbad.
  assert (Hparse : parse_file_range payload
                   = Raise (if (List.length payload <? 16)%nat
                            then StructError else UnicodeDecodeError)).
  { destruct (List.length payload <? 16)%nat eqn:E.
    - apply Nat.ltb_lt in E. now apply parse_file_range_short.
    - apply Nat.ltb_ge in E. destruct Hbad as [Hs | Hd]; [lia|].
      rewrite (parse_file_range_long payload E), Hd. reflexivity. }
  unfold process_file_range_command.
  unfold bind at 1. cbn [log_call usb_in usb_out log].
  rewrite encode_header_some
    by (unfold CommandType.ACK, CommandID.FILE_RANGE, Struct.U32_MAX in *;
        lia).
  rewrite bind_lift_some.
  unfold bind at 1. cbn [context_write usb_in usb_out log].
  rewrite (bind_ok _ _ _ _ _
             (context_read_exact data_size payload rest _ _ Hpayload)).
  rewrite Hparse. reflexivity.
Qed.

Lemma malformed_request_raises_after_ack_witness :
  process_file_range_command (fun _ => None) 0 None
    (mkWorld ([] ++ EXIT_RESPONSE) [] [])
  = (Raise (if (List.length (@nil byte) <? 16)%nat
            then StructError else UnicodeDecodeError),
     mkWorld EXIT_RESPONSE
       ([] ++ [(FileRangeAck,
                header_bytes CommandType.ACK CommandID.FILE_RANGE 0)])
       ([] ++ [(INFO, MsgFileRange)])).
Proof.
  apply (malformed_request_raises_after_ack (fun _ => None) 0 None
           [] EXIT_RESPONSE [] []).
  - unfold Struct.U32_MAX. lia.
  - reflexivity.
  - left. cbn. lia.
Defined.

(** ** What the catalog holds *)

Lemma keys_set_all_nodup (pairs : list (str * str)) (d : OrderedDict.t) :
  NoDup (OrderedDict.keys d) -> NoDup (OrderedDict.keys (set_all pairs d)).
Proof.
  revert d. induction pairs as [|[k v] pairs IH]; intros d Hd; [exact Hd|].
  unfold set_all in *. cbn [fold_left fst snd]. apply IH.
  rewrite keys_set.
  destruct (existsb (str_eqb k) (OrderedDict.keys d)) eqn:E; [exact Hd|].
  apply NoDup_app; [exact Hd | repeat constructor; intros [] |].
  intros x Hx [<- | []].
  apply existsb_str_eqb in Hx. congruence.
Qed.

Lemma keys_set_all_in (pairs : list (str * str)) (d : OrderedDict.t)
      (k : str) :
  In k (OrderedDict.keys (set_all pairs d))
  <-> In k (OrderedDict.keys d) \/ In k (map fst pairs).
Proof.
  revert d. induction pairs as [|[k' v] pairs IH]; intros d.
  - cbn. tauto.
  - unfold set_all in *. cbn [fold_left fst snd map]. rewrite IH, keys_set.
    destruct (existsb (str_eqb k') (OrderedDict.keys d)) eqn:E.
    + apply existsb_str_eqb in E. cbn [In]. split; [tauto|].
      intros [H | [<- | H]]; tauto.
    + rewrite in_app_iff. cbn [In]. tauto.
Qed.

Lemma in_set (d : OrderedDict.t) (k v k' v' : str) :
  In (k, v) (OrderedDict.set d k' v') -> In (k, v) d \/ (k, v) = (k', v').
Proof.
  induction d as [|[k0 v0] d IH]; cbn [OrderedDict.set].
  - intros [H | []]. right. now symmetry.
  - destruct (str_eqb k0 k') eqn:E.
    + apply str_eqb_eq in E. subst k0. intros [H | H].
      * right. now symmetry.
      * left. now right.
    + intros [H | H]; [left; now left|].
      destruct (IH H) as [H' | H']; [left; now right | now right].
Qed.

Lemma in_set_all (pairs : list (str * str)) (d : OrderedDict.t) (k v : str) :
  In (k, v) (set_all pairs d) -> In (k, v) d \/ In (k, v) pairs.
Proof.
  revert d. induction pairs as [|[k' v'] pairs IH]; intros d.
  - cbn. tauto.
  - unfold set_all in *. cbn [fold_left fst snd]. intros H.
    destruct (IH _ H) as [H' | H']; [|right; now right].
    destruct (in_set d k v k' v' H') as [H'' | H'']; [now left|].
    right. left. now symmetry.
Qed.

(** X13. The catalog a LIST builds has every display name once; its names are
    the file names under [work_dir_path] that pass the test of line 121,
    no other and none of them left out; and each name is mapped to the path
    of a directory that lists it, joined with the name. *)
Theorem catalog_entries
        (joinpath : str -> str -> str) (work_dir_path : dirtree) :
  let catalog := catalog_of joinpath work_dir_path in
  NoDup (OrderedDict.keys catalog)
  /\ (forall name,
         In name (OrderedDict.keys catalog)
         <-> exists dirName fileList,
               In (dirName, fileList) (os_walk work_dir_path)
               /\ In name fileList /\ is_rom name = true)
  /\ (forall name path,
         In (name, path) catalog ->
         exists dirName fileList,
           In (dirName, fileList) (os_walk work_dir_path)
           /\ In name fileList /\ path = joinpath dirName name).
Proof.
  intros catalog. subst catalog. rewrite catalog_of_discovered.
  split; [apply keys_set_all_nodup; constructor|]. split.
  - intros name. rewrite keys_set_all_in. cbn [OrderedDict.keys map In].
    rewrite in_map_iff. split.
    + intros [[] | [[k v] [Hk Hin]]]. cbn [fst] in Hk. subst k.
      apply in_discovered in Hin.
      destruct Hin as [d [fl [Hw [Hf [Hr _]]]]]. exists d, fl. tauto.
    + intros [d [fl [Hw [Hf Hr]]]]. right.
      exists (name, joinpath d name). split; [reflexivity|].
      apply in_discovered. exists d, fl. tauto.
  - intros name path Hin. apply in_set_all in Hin.
    destruct Hin as [[] | Hin]. apply in_discovered in Hin.
    destruct Hin as [d [fl [Hw [Hf [_ Hp]]]]]. exists d, fl. tauto.
Qed.

(** X15. After a LIST, a requested name that was discovered is read from the
    path of its last discovery, and a name that was not discovered is used
    as a path as it stands. *)
Theorem listed_name_resolves_to_last_discovery
        (joinpath : str -> str -> str) (work_dir_path : dirtree)
        (name : str) :
  resolve_name (Some (catalog_of joinpath work_dir_path)) name
  = match last_path name (discovered joinpath work_dir_path) with
    | Some path => path
    | None => name
    end.
Proof.
  rewrite <- catalog_get_last_path.
  generalize (catalog_of joinpath work_dir_path). intros c.
  unfold resolve_name, OrderedDict.contains.
  destruct (OrderedDict.get c name) as [path|] eqn:E.
  - destruct c as [|p c]; [discriminate|].
    destruct (OrderedDict.len (p :: c) >? 0) eqn:G; [reflexivity|].
    unfold OrderedDict.len in G. cbn [List.length] in G.
    rewrite Z.gtb_ltb in G. apply Z.ltb_ge in G. lia.
  - now destruct (OrderedDict.len c >? 0).
Qed.

(** ** The UTF-8 codec: encoding undoes decoding *)

Lemma decode_unfold (b0 : byte) (r0 : bytes) :
  Utf8.decode (b0 :: r0)
  = let v0 := byte_val b0 in
    if v0 <? 0x80 then option_map (cons v0) (Utf8.decode r0)
    else if Utf8.within 0xC2 0xDF v0 then
      match r0 with
      | b1 :: r1 =>
        let v1 := byte_val b1 in
        if Utf8.cont v1
        then option_map (cons ((v0 - 0xC0) * 64 + (v1 - 0x80)))
                        (Utf8.decode r1)
        else None
      | _ => None
      end
    else if Utf8.within 0xE0 0xEF v0 then
      match r0 with
      | b1 :: b2 :: r2 =>
        let v1 := byte_val b1 in
        let v2 := byte_val b2 in
        if Utf8.within (if v0 =? 0xE0 then 0xA0 else 0x80)
                       (if v0 =? 0xED then 0x9F else 0xBF) v1
           && Utf8.cont v2
        then option_map
               (cons ((v0 - 0xE0) * 4096 + (v1 - 0x80) * 64 + (v2 - 0x80)))
               (Utf8.decode r2)
        else None
      | _ => None
      end
    else if Utf8.within 0xF0 0xF4 v0 then
      match r0 with
      | b1 :: b2 :: b3 :: r3 =>
        let v1 := byte_val b1 in
        let v2 := byte_val b2 in
        let v3 := byte_val b3 in
        if Utf8.within (if v0 =? 0xF0 then 0x90 else 0x80)
                       (if v0 =? 0xF4 then 0x8F else 0xBF) v1
           && Utf8.cont v2 && Utf8.cont v3
        then option_map
               (cons ((v0 - 0xF0) * 262144 + (v1 - 0x80) * 4096
                      + (v2 - 0x80) * 64 + (v3 - 0x80)))
               (Utf8.decode r3)
        else None
      | _ => None
      end
    else None.
Proof. reflexivity. Qed.

Lemma byte_of_val_eq (n : Z) (b : byte) : n = byte_val b -> byte_of_Z n = b.
Proof. intros ->. apply byte_of_Z_val. Qed.

Lemma option_map_cons_some (c : Z) (o : option str) (s : str) :
  option_map (cons c) o = Some s -> exists s', o = Some s' /\ s = c :: s'.
Proof.
  destruct o as [s'|]; [|discriminate]. cbn. intros H.
  exists s'. split; [reflexivity | congruence].
Qed.

(** One step of the decoder, read backwards: the bytes taken are the
    encoding of the code point given. *)
Lemma decode_step (b0 : byte) (r0 : bytes) (s : str) :
  Utf8.decode (b0 :: r0) = Some s ->
  exists c a rest s',
    b0 :: r0 = a ++ rest
    /\ Utf8.encode_char c = Some a
    /\ Utf8.decode rest = Some s'
    /\ s = c :: s'
    /\ (List.length rest <= List.length r0)%nat.
Proof.
  rewrite decode_unfold. cbv zeta.
  pose proof (byte_val_range b0) as R0.
  unfold Utf8.within, Utf8.cont.
  destruct (byte_val b0 <? 128) eqn:E1.
  { intros H. apply option_map_cons_some in H. destruct H as [s' [Hd ->]].
    exists (byte_val b0), [b0], r0, s'.
    split; [reflexivity|]. split; [|repeat split; auto].
    unfold Utf8.encode_char.
    destruct (byte_val b0 <? 0) eqn:F0; [lia|]. rewrite E1.
    now rewrite byte_of_Z_val. }
  destruct ((194 <=? byte_val b0) && (byte_val b0 <=? 223)) eqn:E2.
  { destruct r0 as [|b1 r1]; [discriminate|].
    pose proof (byte_val_range b1) as R1.
    destruct ((128 <=? byte_val b1) && (byte_val b1 <=? 191)) eqn:C1;
      [|discriminate].
    intros H. apply option_map_cons_some in H. destruct H as [s' [Hd ->]].
    set (c := (byte_val b0 - 192) * 64 + (byte_val b1 - 128)).
    exists c, [b0; b1], r1, s'.
    split; [reflexivity|].
    split; [|repeat split; auto; cbn [List.length]; lia].
    assert (Hc : 128 <= c < 2048) by (unfold c; lia).
    assert (Hq : c / 64 = byte_val b0 - 192)
      by (unfold c; Z.div_mod_to_equations; lia).
    assert (Hr : c mod 64 = byte_val b1 - 128)
      by (unfold c; Z.div_mod_to_equations; lia).
    unfold Utf8.encode_char.
    destruct (c <? 0) eqn:F0; [lia|].
    destruct (c <? 128) eqn:F1; [lia|].
    destruct (c <? 2048) eqn:F2; [|lia].
    rewrite Hq, Hr.
    rewrite (byte_of_val_eq _ b0), (byte_of_val_eq _ b1) by lia.
    reflexivity. }
  destruct ((224 <=? byte_val b0) && (byte_val b0 <=? 239)) eqn:E3.
  { destruct r0 as [|b1 [|b2 r2]]; try discriminate.
    pose proof (byte_val_range b1) as R1.
    pose proof (byte_val_range b2) as R2.
    match goal with
    | |- (if ?t then _ else _) = _ -> _ => destruct t eqn:C; [|discriminate]
    end.
    intros H. apply option_map_cons_some in H. destruct H as [s' [Hd ->]].
    set (c := (byte_val b0 - 224) * 4096 + (byte_val b1 - 128) * 64
              + (byte_val b2 - 128)).
    exists c, [b0; b1; b2], r2, s'.
    split; [reflexivity|].
    split; [|repeat split; auto; cbn [List.length]; lia].
    assert (Hb : 128 <= byte_val b1 <= 191 /\ 128 <= byte_val b2 <= 191
                 /\ (byte_val b0 = 224 -> 160 <= byte_val b1)
                 /\ (byte_val b0 = 237 -> byte_val b1 <= 159)).
    { destruct (byte_val b0 =? 224) eqn:G1;
        destruct (byte_val b0 =? 237) eqn:G2; lia. }
    assert (Hc : 2048 <= c < 65536 /\ ~ (55296 <= c <= 57343))
      by (unfold c; lia).
    assert (Hq : c / 4096 = byte_val b0 - 224)
      by (unfold c; Z.div_mod_to_equations; lia).
    assert (Hm : (c / 64) mod 64 = byte_val b1 - 128)
      by (unfold c; Z.div_mod_to_equations; lia).
    assert (Hr : c mod 64 = byte_val b2 - 128)
      by (unfold c; Z.div_mod_to_equations; lia).
    unfold Utf8.encode_char.
    destruct (c <? 0) eqn:F0; [lia|].
    destruct (c <? 128) eqn:F1; [lia|].
    destruct (c <? 2048) eqn:F2; [lia|].
    destruct (c <? 65536) eqn:F3; [|lia].
    destruct ((55296 <=? c) && (c <=? 57343)) eqn:F4; [lia|].
    rewrite Hq, Hm, Hr.
    rewrite (byte_of_val_eq _ b0), (byte_of_val_eq _ b1),
      (byte_of_val_eq _ b2) by lia.
    reflexivity. }
  destruct ((240 <=? byte_val b0) && (byte_val b0 <=? 244)) eqn:E4;
    [|discriminate].
  destruct r0 as [|b1 [|b2 [|b3 r3]]]; try discriminate.
  pose proof (byte_val_range b1) as R1.
  pose proof (byte_val_range b2) as R2.
  pose proof (byte_val_range b3) as R3.
  match goal with
  | |- (if ?t then _ else _) = _ -> _ => destruct t eqn:C; [|discriminate]
  end.
  intros H. apply option_map_cons_some in H. destruct H as [s' [Hd ->]].
  set (c := (byte_val b0 - 240) * 262144 + (byte_val b1 - 128) * 4096
            + (byte_val b2 - 128) * 64 + (byte_val b3 - 128)).
  exists c, [b0; b1; b2; b3], r3, s'.
  split; [reflexivity|].
    split; [|repeat split; auto; cbn [List.length]; lia].
  assert (Hb : 128 <= byte_val b1 <= 191 /\ 128 <= byte_val b2 <= 191
               /\ 128 <= byte_val b3 <= 191
               /\ (byte_val b0 = 240 -> 144 <= byte_val b1)
               /\ (byte_val b0 = 244 -> byte_val b1 <= 143)).
  { destruct (byte_val b0 =? 240) eqn:G1;
      destruct (byte_val b0 =? 244) eqn:G2; lia. }
  assert (Hc : 65536 <= c < 1114112) by (unfold c; lia).
  assert (Hq : c / 262144 = byte_val b0 - 240)
    by (unfold c; Z.div_mod_to_equations; lia).
  assert (Hm1 : (c / 4096) mod 64 = byte_val b1 - 128)
    by (unfold c; Z.div_mod_to_equations; lia).
  assert (Hm : (c / 64) mod 64 = byte_val b2 - 128)
    by (unfold c; Z.div_mod_to_equations; lia).
  assert (Hr : c mod 64 = byte_val b3 - 128)
    by (unfold c; Z.div_mod_to_equations; lia).
  unfold Utf8.encode_char.
  destruct (c <? 0) eqn:F0; [lia|].
  destruct (c <? 128) eqn:F1; [lia|].
  destruct (c <? 2048) eqn:F2; [lia|].
  destruct (c <? 65536) eqn:F3; [lia|].
  destruct (c <? 1114112) eqn:F5; [|lia].
  rewrite Hq, Hm1, Hm, Hr.
  rewrite (byte_of_val_eq _ b0), (byte_of_val_eq _ b1),
    (byte_of_val_eq _ b2), (byte_of_val_eq _ b3) by lia.
  reflexivity.
Qed.

Lemma encode_decode_bounded (n : nat) :
  forall (b : bytes) (s : str),
    (List.length b <= n)%nat ->
    Utf8.decode b = Some s -> Utf8.encode s = Some b.
Proof.
  induction n as [|n IH]; intros b s Hlen Hd.
  - destruct b; [|cbn in Hlen; lia]. cbn in Hd. now inversion Hd.
  - destruct b as [|b0 r0]; [cbn in Hd; now inversion Hd|].
    destruct (decode_step b0 r0 s Hd) as [c [a [rest [s' [Hb [Hc [Hr [-> Hl]]]]]]]].
    cbn [List.length] in Hlen.
    rewrite Hb. cbn [Utf8.encode]. rewrite Hc.
    rewrite (IH rest s' ltac:(lia) Hr). reflexivity.
Qed.

(** ** FILE_RANGE: the payload and the request *)

Lemma firstn_exact {A} (n : nat) (a r : list A) :
  List.length a = n -> firstn n (a ++ r) = a.
Proof.
  intros <-. rewrite firstn_app, Nat.sub_diag, firstn_all, firstn_O.
  apply app_nil_r.
Qed.

Lemma skipn_exact {A} (n : nat) (a r : list A) :
  List.length a = n -> skipn n (a ++ r) = r.
Proof.
  intros <-. rewrite skipn_app, Nat.sub_diag, skipn_all. reflexivity.
Qed.

Lemma of_le_to_le_small (n : nat) (v : Z) :
  0 <= v < 256 ^ Z.of_nat n -> Struct.of_le (Struct.to_le n v) = v.
Proof. intros H. rewrite of_le_to_le. now apply Z.mod_small. Qed.

Lemma to_le_of_le_n (n : nat) (b : bytes) :
  List.length b = n -> Struct.to_le n (Struct.of_le b) = b.
Proof. intros <-. apply to_le_of_le. Qed.

(** X12. The payload of a FILE_RANGE request and the request parsed from it
    determine each other: a payload parses to a request exactly when it is
    the range size, the offset and the name length as unsigned
    little-endian fields of 4, 8 and 4 bytes followed by the UTF-8 encoding
    of the name. So a name sent in a LIST and sent back as it came is parsed
    to that name, and no two payloads are parsed to the same request. *)
Theorem file_range_request_round_trip (payload : bytes) (req : RangeRequest) :
  parse_file_range payload = Ok req
  <-> (0 <= range_size req <= Struct.U32_MAX
       /\ 0 <= range_offset req <= Struct.U64_MAX
       /\ 0 <= nsp_name_len req <= Struct.U32_MAX
       /\ exists name_bytes,
            Utf8.encode (nsp_name req) = Some name_bytes
            /\ payload = Struct.to_le 4 (range_size req)
                         ++ Struct.to_le 8 (range_offset req)
                         ++ Struct.to_le 4 (nsp_name_len req)
                         ++ name_bytes).
Proof.
  split.
  - intros H.
    destruct (parse_file_range_ok payload req H) as [Hlen [Hs [Ho Hd]]].
    rewrite (parse_file_range_long payload Hlen), Hd in H.
    assert (Hreq : req = mkRangeRequest
                           (Struct.of_le (firstn 4 payload))
                           (Struct.of_le (firstn 8 (skipn 4 payload)))
                           (Struct.of_le (firstn 4 (skipn 12 payload)))
                           (nsp_name req)) by congruence.
    split; [exact Hs|]. split; [exact Ho|].
    assert (L4 : List.length (firstn 4 payload) = 4%nat)
      by (apply firstn_length_le; lia).
    assert (L8 : List.length (firstn 8 (skipn 4 payload)) = 8%nat)
      by (apply firstn_length_le; rewrite length_skipn; lia).
    assert (L4' : List.length (firstn 4 (skipn 12 payload)) = 4%nat)
      by (apply firstn_length_le; rewrite length_skipn; lia).
    split.
    { rewrite Hreq. cbn [nsp_name_len]. now apply of_le_u32. }
    exists (skipn 16 payload).
    split; [apply (encode_decode_bounded (List.length payload));
            [rewrite length_skipn; lia | exact Hd]|].
    rewrite Hreq. cbn [range_size range_offset nsp_name_len].
    rewrite !to_le_of_le_n by assumption.
    rewrite <- (firstn_skipn 4 payload) at 1. f_equal.
    rewrite <- (firstn_skipn 8 (skipn 4 payload)) at 1. f_equal.
    rewrite skipn_skipn. change (8 + 4)%nat with 12%nat.
    rewrite <- (firstn_skipn 4 (skipn 12 payload)) at 1. f_equal.
    rewrite skipn_skipn. reflexivity.
  - intros [Hs [Ho [Hl [nb [Henc ->]]]]].
    set (A := Struct.to_le 4 (range_size req)).
    set (B := Struct.to_le 8 (range_offset req)).
    set (C := Struct.to_le 4 (nsp_name_len req)).
    assert (LA : List.length A = 4%nat) by apply to_le_length.
    assert (LB : List.length B = 8%nat) by apply to_le_length.
    assert (LC : List.length C = 4%nat) by apply to_le_length.
    rewrite parse_file_range_long
      by (rewrite !length_app, LA, LB, LC; lia).
    assert (H4 : skipn 4 (A ++ B ++ C ++ nb) = B ++ C ++ nb)
      by now apply skipn_exact.
    assert (H12 : skipn 12 (A ++ B ++ C ++ nb) = C ++ nb).
    { change 12%nat with (8 + 4)%nat. rewrite <- skipn_skipn, H4.
      now apply skipn_exact. }
    assert (H16 : skipn 16 (A ++ B ++ C ++ nb) = nb).
    { change 16%nat with (4 + 12)%nat. rewrite <- skipn_skipn, H12.
      now apply skipn_exact. }
    rewrite H4, H12, H16, !firstn_exact by assumption.
    rewrite (decode_encode _ _ Henc).
    unfold A, B, C. unfold Struct.U32_MAX, Struct.U64_MAX in *.
    rewrite !of_le_to_le_small
      by (first [ change (256 ^ Z.of_nat 4) with 4294967296
                | change (256 ^ Z.of_nat 8) with 18446744073709551616 ];
          lia).
    now destruct req.
Qed.

(** ** Headers read, one more time *)

(** X1. Every block of 16 bytes that starts with the magic is taken as a
    header: the three fields unpacked from it are unsigned 32-bit values,
    unpacking never raises, and packing the fields again gives the block
    back. *)
Theorem magic_block_is_a_header (h : bytes) :
  List.length h = 16%nat ->
  firstn 4 h = MAGIC ->
  exists cmd_type cmd_id data_size,
    decode_header h = Header cmd_type cmd_id data_size
    /\ 0 <= cmd_type <= Struct.U32_MAX
    /\ 0 <= cmd_id <= Struct.U32_MAX
    /\ 0 <= data_size <= Struct.U32_MAX
    /\ encode_header cmd_type cmd_id data_size = Some h.
Proof.
  intros Hlen Hmagic.
  assert (Hh : h = MAGIC ++ firstn 4 (skipn 4 h) ++ firstn 4 (skipn 8 h)
                     ++ skipn 12 h).
  { rewrite <- Hmagic.
    transitivity (firstn 4 h ++ skipn 4 h);
      [symmetry; apply firstn_skipn | f_equal].
    transitivity (firstn 4 (skipn 4 h) ++ skipn 4 (skipn 4 h));
      [symmetry; apply firstn_skipn | f_equal].
    rewrite skipn_skipn. change (4 + 4)%nat with 8%nat.
    transitivity (firstn 4 (skipn 8 h) ++ skipn 4 (skipn 8 h));
      [symmetry; apply firstn_skipn | f_equal].
    now rewrite skipn_skipn. }
  set (a := firstn 4 (skipn 4 h)) in *.
  set (b := firstn 4 (skipn 8 h)) in *.
  set (c := skipn 12 h) in *.
  assert (La : List.length a = 4%nat)
    by (apply firstn_length_le; rewrite length_skipn; lia).
  assert (Lb : List.length b = 4%nat)
    by (apply firstn_length_le; rewrite length_skipn; lia).
  assert (Lc : List.length c = 4%nat)
    by (unfold c; rewrite length_skipn; lia).
  exists (Struct.of_le a), (Struct.of_le b), (Struct.of_le c).
  pose proof (of_le_u32 a La) as Ra.
  pose proof (of_le_u32 b Lb) as Rb.
  pose proof (of_le_u32 c Lc) as Rc.
  split; [rewrite Hh; now apply decode_header_fields|].
  split; [exact Ra|]. split; [exact Rb|]. split; [exact Rc|].
  rewrite encode_header_some by assumption.
  rewrite !to_le_of_le_n by assumption. now rewrite <- Hh.
Qed.

Lemma magic_block_is_a_header_witness :
  exists cmd_type cmd_id data_size,
    decode_header EXIT_RESPONSE = Header cmd_type cmd_id data_size
    /\ 0 <= cmd_type <= Struct.U32_MAX
    /\ 0 <= cmd_id <= Struct.U32_MAX
    /\ 0 <= data_size <= Struct.U32_MAX
    /\ encode_header cmd_type cmd_id data_size = Some EXIT_RESPONSE.
Proof.
  apply (magic_block_is_a_header EXIT_RESPONSE); reflexivity.
Defined.

(** X5. A LIST puts its catalog in the place of the one before: from a LIST
    header on, the run of the loop is the same whatever the cache held. *)
Theorem list_discards_previous_catalog
        (joinpath : str -> str -> str) (open_rb : str -> option bytes)
        (fuel : nat) (work_dir_path : dirtree)
        (cache cache' : option OrderedDict.t)
        (h rest : bytes) out lg (cmd_type data_size : Z) :
  List.length h = 16%nat ->
  decode_header h = Header cmd_type CommandID.LIST data_size ->
  poll_loop joinpath open_rb (S fuel) work_dir_path cache
            (mkWorld (h ++ rest) out lg)
  = poll_loop joinpath open_rb (S fuel) work_dir_path cache'
              (mkWorld (h ++ rest) out lg).
Proof.
  intros Hlen Hd.
  rewrite !(poll_loop_on_header _ _ _ _ _ h rest out lg _ _ _ Hlen Hd).
  reflexivity.
Qed.

Lemma list_discards_previous_catalog_witness :
  poll_loop posix_joinpath two_roms_files 3 two_roms None
            (mkWorld (header_bytes 0 3 0 ++ skipn 16 two_roms_session) [] [])
  = poll_loop posix_joinpath two_roms_files 3 two_roms
              (Some [(lit "a.nsp", lit "/elsewhere")])
              (mkWorld (header_bytes 0 3 0 ++ skipn 16 two_roms_session)
                       [] []).
Proof.
  apply (list_discards_previous_catalog posix_joinpath two_roms_files 2
           two_roms None (Some [(lit "a.nsp", lit "/elsewhere")])
           (header_bytes 0 3 0) (skipn 16 two_roms_session) [] [] 0 0);
    reflexivity.
Defined.

(** ** The list sent, read back *)

Lemma line_split (n n' r r' : str) :
  ~ In 10 n -> ~ In 10 n' ->
  n ++ NEWLINE ++ r = n' ++ NEWLINE ++ r' -> n = n' /\ r = r'.
Proof.
  revert n'. induction n as [|c n IH]; intros [|c' n'] Hn Hn' H;
    cbn [app NEWLINE] in H.
  - injection H as H. auto.
  - injection H as H _. exfalso. apply Hn'. left. now symmetry.
  - injection H as H _. exfalso. apply Hn. now left.
  - injection H as Hc H. subst c'.
    destruct (IH n') as [-> ->]; auto.
    + intros Hin. apply Hn. now right.
    + intros Hin. apply Hn'. now right.
Qed.

(** X16. The names can be read back from the list sent as long as no name holds
    a newline: two lists of such names that are joined to the same text are
    the same list. A newline within a name is sent as it is, so that the
    one name "a\nb" and the two names "a", "b" are joined to the same
    text. *)
Theorem list_text_determines_names (names names' : list str) :
  (forall n, In n names -> ~ In 10 n) ->
  (forall n, In n names' -> ~ In 10 n) ->
  join_names names = join_names names' ->
  names = names'
  /\ join_names [[97; 10; 98]] = join_names [[97]; [98]].
Proof.
  intros Hn Hn' H. split; [|reflexivity].
  rewrite !join_names_concat in H.
  revert names' Hn' H. induction names as [|n names IH];
    intros [|n' names'] Hn' H; cbn [map List.concat] in H.
  - reflexivity.
  - destruct n'; discriminate H.
  - destruct n; discriminate H.
  - rewrite <- !app_assoc in H.
    apply line_split in H; [|apply Hn; now left | apply Hn'; now left].
    destruct H as [-> H]. f_equal.
    apply IH; [intros m Hm; apply Hn; now right
              | intros m Hm; apply Hn'; now right | exact H].
Qed.

Lemma list_text_determines_names_witness :
  [lit "a.nsp"; lit "b.xci"] = [lit "a.nsp"; lit "b.xci"]
  /\ join_names [[97; 10; 98]] = join_names [[97]; [98]].
Proof.
  apply (list_text_determines_names [lit "a.nsp"; lit "b.xci"]
                                    [lit "a.nsp"; lit "b.xci"]).
  - intros n [<- | [<- | []]]; cbn; intuition discriminate.
  - intros n [<- | [<- | []]]; cbn; intuition discriminate.
  - reflexivity.
Defined.

Lemma process_list_command_ok
      (joinpath : str -> str -> str) (top : dirtree)
      (ack rest payload : bytes) out lg :
  List.length ack = 16%nat ->
  Utf8.encode (join_names (OrderedDict.keys (catalog_of joinpath top)))
  = Some payload ->
  Z.of_nat (List.length payload) <= Struct.U32_MAX ->
  exists lg',
    process_list_command joinpath top (mkWorld (ack ++ rest) out lg)
    = (Ok (catalog_of joinpath top),
       mkWorld rest
         (out ++ [(ListResponse,
                   header_bytes CommandType.RESPONSE CommandID.LIST
                                (Z.of_nat (List.length payload)));
                  (ListPayload, payload)])
         lg').
Proof.
  intros Hack Henc Hlen.
  destruct (process_list_command_run joinpath top
              (mkWorld (ack ++ rest) out lg)) as [lg1 Hrun].
  rewrite Hrun. cbn [usb_in usb_out]. unfold send_rom_list.
  rewrite Henc, bind_lift_some.
  rewrite encode_header_some
    by (unfold CommandType.RESPONSE, CommandID.LIST, Struct.U32_MAX in *;
        lia).
  rewrite bind_lift_some.
  unfold bind at 1. cbn [context_write usb_in usb_out log].
  rewrite (bind_ok _ _ _ _ _ (read_ack_exact ack rest _ _ Hack)).
  unfold bind, context_write, ret. cbn [usb_in usb_out log].
  eexists. unfold header_bytes. rewrite <- app_assoc. reflexivity.
Qed.

(** X17. A directory tree in which no file name passes the test of line 121 is
    listed all the same: the RESPONSE header tells size 0, the ACK is
    awaited, an empty block is written, and the cache that is installed is
    empty, so that later requests use their names as paths. *)
Theorem empty_listing_is_still_sent
        (joinpath : str -> str -> str) (work_dir_path : dirtree)
        (ack rest : bytes) out lg :
  (forall dirName fileList filename,
      In (dirName, fileList) (os_walk work_dir_path) ->
      In filename fileList -> is_rom filename = false) ->
  List.length ack = 16%nat ->
  exists lg',
    process_list_command joinpath work_dir_path
                         (mkWorld (ack ++ rest) out lg)
    = (Ok OrderedDict.empty,
       mkWorld rest
         (out ++ [(ListResponse,
                   header_bytes CommandType.RESPONSE CommandID.LIST 0);
                  (ListPayload, [])])
         lg')
    /\ forall name, resolve_name (Some OrderedDict.empty) name = name.
Proof.
  intros Hnone Hack.
  assert (Hempty : catalog_of joinpath work_dir_path = OrderedDict.empty).
  { rewrite catalog_of_discovered.
    destruct (discovered joinpath work_dir_path) as [|[k v] l] eqn:E;
      [reflexivity|].
    assert (Hin : In (k, v) (discovered joinpath work_dir_path))
      by (rewrite E; now left).
    apply in_discovered in Hin.
    destruct Hin as [d [fl [Hw [Hf [Hr _]]]]].
    rewrite (Hnone d fl k Hw Hf) in Hr. discriminate. }
  destruct (process_list_command_ok joinpath work_dir_path ack rest [] out lg
              Hack) as [lg' Hrun].
  - now rewrite Hempty.
  - cbn. unfold Struct.U32_MAX. lia.
  - exists lg'. rewrite Hrun, Hempty. split; reflexivity.
Qed.

Lemma empty_listing_is_still_sent_witness :
  exists lg',
    process_list_command posix_joinpath
      (Dir (lit "/roms") [] [lit "readme.txt"])
      (mkWorld (EXIT_RESPONSE ++ []) [] [])
    = (Ok OrderedDict.empty,
       mkWorld []
         ([] ++ [(ListResponse,
                  header_bytes CommandType.RESPONSE CommandID.LIST 0);
                 (ListPayload, [])])
         lg')
    /\ forall name, resolve_name (Some OrderedDict.empty) name = name.
Proof.
  apply (empty_listing_is_still_sent posix_joinpath
           (Dir (lit "/roms") [] [lit "readme.txt"]) EXIT_RESPONSE [] [] []).
  - intros d fl f [H | []] Hf. injection H as <- <-.
    destruct Hf as [<- | []]. reflexivity.
  - reflexivity.
Defined.

(** ** The blocks of a range *)

Lemma stream_range_blocks (fuel : nat) :
  forall (f : file) (curr_off rem : Z) (w : world),
    (Z.to_nat rem <= fuel)%nat -> 0 <= pos f -> 0 <= rem ->
    let rest := skipn (Z.to_nat (pos f)) (content f) in
    rem <= Z.of_nat (List.length rest) ->
    exists chunks : list bytes,
      stream_range fuel f curr_off rem w
      = (Ok tt, mkWorld (usb_in w) (usb_out w ++ file_data chunks) (log w))
      /\ List.concat chunks = firstn (Z.to_nat rem) rest
      /\ Z.of_nat (List.length chunks)
         = (rem + BUFFER_SEGMENT_DATA_SIZE - 1) / BUFFER_SEGMENT_DATA_SIZE
      /\ Forall full_block (removelast chunks).
Proof.
  induction fuel as [|fuel IH]; intros f c rem w Hfuel Hpos Hrem rest Hin.
  - assert (rem = 0) as -> by lia.
    exists []. cbn [stream_range Z.gtb Z.compare]. unfold ret, file_data.
    cbn [map]. rewrite app_nil_r.
    split; [now destruct w|]. repeat split. constructor.
  - cbn [stream_range]. destruct (rem >? 0) eqn:G.
    + rewrite Z.gtb_ltb in G. apply Z.ltb_lt in G.
      set (chunk_size := Z.min BUFFER_SEGMENT_DATA_SIZE rem).
      assert (Hchunk : 0 < chunk_size <= rem
                       /\ chunk_size <= BUFFER_SEGMENT_DATA_SIZE
                       /\ (rem <= BUFFER_SEGMENT_DATA_SIZE ->
                           chunk_size = rem)
                       /\ (BUFFER_SEGMENT_DATA_SIZE < rem ->
                           chunk_size = BUFFER_SEGMENT_DATA_SIZE))
        by (unfold chunk_size, BUFFER_SEGMENT_DATA_SIZE; lia).
      unfold file_read. fold rest.
      set (n := Z.to_nat chunk_size).
      assert (Hlen : List.length (firstn n rest) = n)
        by (apply firstn_length_le; unfold n; lia).
      destruct (firstn n rest) as [|x buf] eqn:Ebuf;
        [cbn [List.length] in Hlen; unfold n in Hlen; lia|].
      rewrite <- Ebuf in *.
      set (f' := mkFile (content f)
                        (pos f + Z.of_nat (List.length (firstn n rest)))).
      assert (Hrest' : skipn (Z.to_nat (pos f')) (content f')
                       = skipn n rest).
      { unfold f'. cbn [pos content].
        replace (Z.to_nat (pos f + Z.of_nat (List.length (firstn n rest))))
          with (List.length (firstn n rest) + Z.to_nat (pos f))%nat by lia.
        rewrite <- skipn_skipn. fold rest. apply skipn_length_firstn. }
      unfold bind at 1. cbn [context_write usb_in usb_out log].
      match goal with
      | |- context [stream_range fuel f' ?C ?R ?W] =>
        destruct (IH f' C R W) as [chunks [Hrun [Hcat [Hcount Hfull]]]];
          [lia | unfold f'; cbn [pos]; lia | lia
           | rewrite Hrest', length_skipn; unfold n; lia |]
      end.
      cbn [usb_in usb_out log] in Hrun. rewrite Hrest' in Hcat.
      exists (firstn n rest :: chunks).
      split; [|split; [|split]].
      * rewrite Hrun. unfold file_data. cbn [map].
        now rewrite <- app_assoc.
      * cbn [List.concat]. rewrite Hcat.
        replace (Z.to_nat (rem - chunk_size))
          with (Z.to_nat rem - n)%nat by (unfold n; lia).
        rewrite <- firstn_add. f_equal. unfold n. lia.
      * cbn [List.length]. rewrite Nat2Z.inj_succ, Hcount.
        unfold BUFFER_SEGMENT_DATA_SIZE in *.
        Z.div_mod_to_equations. lia.
      * destruct chunks as [|c2 chunks]; [constructor|].
        change (removelast (firstn n rest :: c2 :: chunks))
          with (firstn n rest :: removelast (c2 :: chunks)).
        constructor; [|exact Hfull].
        unfold full_block. rewrite Hlen. unfold n.
        cbn [List.length] in Hcount. rewrite Nat2Z.inj_succ in Hcount.
        assert (0 < rem - chunk_size).
        { unfold BUFFER_SEGMENT_DATA_SIZE in *.
          revert Hcount. Z.div_mod_to_equations. lia. }
        lia.
    + rewrite Z.gtb_ltb in G. apply Z.ltb_ge in G.
      assert (rem = 0) as -> by lia.
      exists []. unfold ret, file_data. cbn [map]. rewrite app_nil_r.
      split; [now destruct w|]. repeat split. constructor.
Qed.

(** X9. A range that lies within the file goes out in as few blocks as 1 MiB
    allows: the number of blocks is the range size divided by 1 MiB,
    rounded up, every block but the last has exactly 1 MiB, and together
    they are the bytes of the range. Nothing else is written or logged. *)
Theorem range_is_sent_in_full_blocks
        (data : bytes) (offset size : Z) (w : world) :
  0 <= offset < 2 ^ 63 -> 0 <= size ->
  offset + size <= Z.of_nat (List.length data) ->
  exists chunks : list bytes,
    send_file_range data offset size w
    = (Ok tt, mkWorld (usb_in w) (usb_out w ++ file_data chunks) (log w))
    /\ List.concat chunks
       = firstn (Z.to_nat size) (skipn (Z.to_nat offset) data)
    /\ Z.of_nat (List.length chunks)
       = (size + BUFFER_SEGMENT_DATA_SIZE - 1) / BUFFER_SEGMENT_DATA_SIZE
    /\ Forall full_block (removelast chunks).
Proof.
  intros Hoff Hsize Hin. unfold send_file_range, file_seek.
  destruct (offset <? 2 ^ 63) eqn:E; [|apply Z.ltb_ge in E; lia].
  unfold bind at 1, ret.
  apply (stream_range_blocks (Z.to_nat size) (mkFile data offset) 0 size w).
  - lia.
  - cbn [pos]. lia.
  - exact Hsize.
  - cbn [pos content]. rewrite length_skipn. lia.
Qed.

Lemma range_is_sent_in_full_blocks_witness :
  exists chunks : list bytes,
    send_file_range [x00; x01; x02; x03; x04; x05; x06; x07; x08; x09] 2 4
                    (mkWorld [] [] [])
    = (Ok tt, mkWorld [] ([] ++ file_data chunks) [])
    /\ List.concat chunks
       = firstn (Z.to_nat 4)
                (skipn (Z.to_nat 2)
                       [x00; x01; x02; x03; x04; x05; x06; x07; x08; x09])
    /\ Z.of_nat (List.length chunks)
       = (4 + BUFFER_SEGMENT_DATA_SIZE - 1) / BUFFER_SEGMENT_DATA_SIZE
    /\ Forall full_block (removelast chunks).
Proof.
  apply (range_is_sent_in_full_blocks
           [x00; x01; x02; x03; x04; x05; x06; x07; x08; x09] 2 4
           (mkWorld [] [] [])); cbn; lia.
Defined.

(** ** A LIST and a FILE_RANGE in a row *)

Lemma decode_header_range (h : bytes) (cmd_type cmd_id data_size : Z) :
  decode_header h = Header cmd_type cmd_id data_size ->
  0 <= data_size <= Struct.U32_MAX.
Proof.
  unfold decode_header, Struct.unpack_I.
  destruct (negb (startswith h MAGIC)); [discriminate|].
  destruct (Nat.eqb (List.length (slice 4 8 h)) 4); [|discriminate].
  destruct (Nat.eqb (List.length (slice 8 12 h)) 4); [|discriminate].
  destruct (Nat.eqb (List.length (slice 12 16 h)) 4) eqn:E; [|discriminate].
  apply Nat.eqb_eq in E. intros H.
  assert (data_size = Struct.of_le (slice 12 16 h)) as -> by congruence.
  now apply of_le_u32.
Qed.

(** X6. A LIST followed by a FILE_RANGE for a range within the file its name
    resolves to in the new catalog: two turns of the loop write the
    RESPONSE header of the LIST, the list, the ACK and RESPONSE headers of
    the FILE_RANGE and the bytes of the range, and leave the loop waiting
    for the next header with the new catalog as its cache, whatever the
    cache was before. *)
Theorem list_then_file_range
        (joinpath : str -> str -> str) (open_rb : str -> option bytes)
        (fuel : nat) (work_dir_path : dirtree)
        (cache : option OrderedDict.t)
        (h1 ack1 h2 payload ack2 rest listing data : bytes) out lg
        (type1 size1 type2 data_size : Z) (req : RangeRequest) :
  let catalog := catalog_of joinpath work_dir_path in
  List.length h1 = 16%nat ->
  decode_header h1 = Header type1 CommandID.LIST size1 ->
  List.length ack1 = 16%nat ->
  Utf8.encode (join_names (OrderedDict.keys catalog)) = Some listing ->
  Z.of_nat (List.length listing) <= Struct.U32_MAX ->
  List.length h2 = 16%nat ->
  decode_header h2 = Header type2 CommandID.FILE_RANGE data_size ->
  List.length payload = Z.to_nat data_size ->
  parse_file_range payload = Ok req ->
  List.length ack2 = 16%nat ->
  open_rb (resolve_name (Some catalog) (nsp_name req)) = Some data ->
  range_offset req + range_size req <= Z.of_nat (List.length data) ->
  range_offset req < 2 ^ 63 ->
  exists (chunks : list bytes) lg',
    poll_loop joinpath open_rb (S (S fuel)) work_dir_path cache
      (mkWorld (h1 ++ ack1 ++ h2 ++ payload ++ ack2 ++ rest) out lg)
    = poll_loop joinpath open_rb fuel work_dir_path (Some catalog)
        (mkWorld rest
           (out
            ++ [(ListResponse,
                 header_bytes CommandType.RESPONSE CommandID.LIST
                              (Z.of_nat (List.length listing)));
                (ListPayload, listing);
                (FileRangeAck,
                 header_bytes CommandType.ACK CommandID.FILE_RANGE
                              data_size);
                (FileRangeResponse,
                 header_bytes CommandType.RESPONSE CommandID.FILE_RANGE
                              (range_size req))]
            ++ file_data chunks)
           lg')
    /\ List.concat chunks
       = firstn (Z.to_nat (range_size req))
                (skipn (Z.to_nat (range_offset req)) data).
Proof.
  intros catalog Hh1 Hd1 Hack1 Henc Hlen Hh2 Hd2 Hpayload Hparse Hack2
         Hopen Hin Hoff.
  pose proof (decode_header_range _ _ _ _ Hd2) as Hsize.
  destruct (parse_file_range_ok payload req Hparse) as [_ [Hrs [Hro _]]].
  rewrite (poll_loop_on_header _ _ _ _ _ h1 _ out lg _ _ _ Hh1 Hd1).
  change (CommandID.LIST =? CommandID.EXIT) with false.
  change (CommandID.LIST =? CommandID.LIST) with true. cbv iota.
  match goal with
  | |- context [bind (process_list_command _ _) _ (mkWorld _ _ ?L)] =>
    destruct (process_list_command_ok joinpath work_dir_path ack1
                (h2 ++ payload ++ ack2 ++ rest) listing out L
                Hack1 Henc Hlen) as [lg1 Hlist]
  end.
  rewrite (bind_ok _ _ _ _ _ Hlist). fold catalog.
  rewrite (poll_loop_on_header _ _ _ _ _ h2 _ _ _ _ _ _ Hh2 Hd2).
  change (CommandID.FILE_RANGE =? CommandID.EXIT) with false.
  change (CommandID.FILE_RANGE =? CommandID.LIST) with false.
  change (CommandID.FILE_RANGE =? CommandID.FILE_RANGE) with true. cbv iota.
  unfold bind at 1.
  rewrite (process_file_range_command_run open_rb data_size (Some catalog)
             payload ack2 rest _ _ req Hsize Hpayload Hack2 Hparse).
  rewrite Hopen, bind_lift_some.
  match goal with
  | |- context [send_file_range _ _ _ ?W] =>
    destruct (range_within_file data (range_offset req) (range_size req) W)
      as [chunks [Hrun [Hcat _]]]; [lia | lia | lia |]
  end.
  cbn [usb_in usb_out log] in Hrun. rewrite Hrun.
  exists chunks. eexists. split; [|exact Hcat].
  rewrite <- !app_assoc. reflexivity.
Qed.

Lemma list_then_file_range_witness :
  exists (chunks : list bytes) lg',
    poll_loop posix_joinpath two_roms_files 2 two_roms None
      (mkWorld (header_bytes 0 3 0 ++ header_bytes 2 3 12
                ++ header_bytes 0 2 21 ++ example_payload
                ++ header_bytes 2 2 4 ++ EXIT_RESPONSE) [] [])
    = poll_loop posix_joinpath two_roms_files 0 two_roms
        (Some (catalog_of posix_joinpath two_roms))
        (mkWorld EXIT_RESPONSE
           ([]
            ++ [(ListResponse,
                 header_bytes CommandType.RESPONSE CommandID.LIST
                   (Z.of_nat
                      (List.length
                         [x61; x2e; x6e; x73; x70; x0a;
                          x62; x2e; x78; x63; x69; x0a])));
                (ListPayload,
                 [x61; x2e; x6e; x73; x70; x0a;
                  x62; x2e; x78; x63; x69; x0a]);
                (FileRangeAck,
                 header_bytes CommandType.ACK CommandID.FILE_RANGE 21);
                (FileRangeResponse,
                 header_bytes CommandType.RESPONSE CommandID.FILE_RANGE
                   (range_size (mkRangeRequest 4 2 0 (lit "a.nsp"))))]
            ++ file_data chunks)
           lg')
    /\ List.concat chunks
       = firstn (Z.to_nat (range_size (mkRangeRequest 4 2 0 (lit "a.nsp"))))
                (skipn (Z.to_nat (range_offset
                                    (mkRangeRequest 4 2 0 (lit "a.nsp"))))
                       [x00; x01; x02; x03; x04; x05; x06; x07; x08; x09]).
Proof.
  apply (list_then_file_range posix_joinpath two_roms_files 0 two_roms None
           (header_bytes 0 3 0) (header_bytes 2 3 12) (header_bytes 0 2 21)
           example_payload (header_bytes 2 2 4) EXIT_RESPONSE
           [x61; x2e; x6e; x73; x70; x0a; x62; x2e; x78; x63; x69; x0a]
           [x00; x01; x02; x03; x04; x05; x06; x07; x08; x09] [] []
           0 0 0 21 (mkRangeRequest 4 2 0 (lit "a.nsp")));
    try reflexivity; cbn; unfold Struct.U32_MAX; lia.
Defined.

(** ** Start-up *)

Lemma endpoint_direction_cases (address : Z) :
  endpoint_direction address = ENDPOINT_OUT
  \/ endpoint_direction address = ENDPOINT_IN.
Proof.
  unfold endpoint_direction, ENDPOINT_OUT, ENDPOINT_IN.
  change 128 with (2 ^ 7).
  destruct (Z.testbit address 7) eqn:E.
  - right. apply Z.bits_inj'. intros n Hn.
    rewrite Z.land_spec, Z.pow2_bits_eqb by lia.
    destruct (Z.eqb_spec 7 n) as [<- | Hne]; [now rewrite E|].
    now rewrite andb_false_r.
  - left. apply Z.bits_inj'. intros n Hn.
    rewrite Z.land_spec, Z.pow2_bits_eqb, Z.bits_0 by lia.
    destruct (Z.eqb_spec 7 n) as [<- | Hne]; [now rewrite E|].
    now rewrite andb_false_r.
Qed.

(** X18. A [UsbContext] is made exactly when interface (0, 0) has an endpoint
    of each direction; its two endpoints are then endpoints of the device,
    the one for writing of direction OUT, the one for reading of direction
    IN, and so not the same endpoint. Without an OUT endpoint the
    [LookupError] names the output endpoint, also when there is no IN
    endpoint either; with an OUT endpoint and no IN endpoint it names the
    input endpoint. *)
Theorem usb_context_endpoints (addresses : list Z) :
  match UsbContext_init (Endpoints addresses) with
  | Started ctx =>
    In (_out ctx) addresses
    /\ endpoint_direction (_out ctx) = ENDPOINT_OUT
    /\ In (_in ctx) addresses
    /\ endpoint_direction (_in ctx) = ENDPOINT_IN
    /\ _out ctx <> _in ctx
  | Stopped e =>
    (e = LookupErrorOutput
     /\ forall a, In a addresses -> endpoint_direction a = ENDPOINT_IN)
    \/ (e = LookupErrorInput
        /\ addresses <> []
        /\ forall a, In a addresses -> endpoint_direction a = ENDPOINT_OUT)
  | StillWaiting => False
  end.
Proof.
  unfold UsbContext_init.
  destruct (find (fun ep => endpoint_direction ep =? ENDPOINT_OUT) addresses)
    as [o|] eqn:Eo.
  - apply find_some in Eo. destruct Eo as [Ho Hdo]. apply Z.eqb_eq in Hdo.
    destruct (find (fun ep => endpoint_direction ep =? ENDPOINT_IN) addresses)
      as [i|] eqn:Ei.
    + apply find_some in Ei. destruct Ei as [Hi Hdi]. apply Z.eqb_eq in Hdi.
      cbn [_out _in]. repeat split; try assumption.
      intros ->. rewrite Hdo in Hdi. discriminate.
    + right. split; [reflexivity|]. split.
      * intros ->. contradiction.
      * intros a Ha.
        pose proof (find_none _ _ Ei a Ha) as Hna. cbn beta in Hna.
        apply Z.eqb_neq in Hna.
        destruct (endpoint_direction_cases a); [assumption | contradiction].
  - left. split; [reflexivity|]. intros a Ha.
    pose proof (find_none _ _ Eo a Ha) as Hna. cbn beta in Hna.
    apply Z.eqb_neq in Hna.
    destruct (endpoint_direction_cases a); [contradiction | assumption].
Qed.

Lemma usb_context_endpoints_aux (addresses : list Z) :
  UsbContext_init (Endpoints addresses) <> Stopped ConnectionError.
Proof.
  unfold UsbContext_init.
  destruct (find (fun ep => endpoint_direction ep =? ENDPOINT_OUT) addresses);
    [|discriminate].
  destruct (find (fun ep => endpoint_direction ep =? ENDPOINT_IN) addresses);
    discriminate.
Qed.

Lemma connect_to_switch_waits (k : nat) (tries : list probe) :
  connect_to_switch (repeat NoDevice k ++ tries)
  = (fst (connect_to_switch tries),
     (k + snd (connect_to_switch tries))%nat).
Proof.
  induction k as [|k IH]; cbn [repeat app connect_to_switch UsbContext_init].
  - now destruct (connect_to_switch tries).
  - rewrite IH. reflexivity.
Qed.

(** X19. [connect_to_switch] tries again only while no device is found. The
    first try that finds one decides: its context is returned, or its
    exception (a missing endpoint, a device that fails) ends the program
    with no further try. Before that, every try without a device costs one
    wait; with no device on any try the loop is still waiting. *)
Theorem connect_to_switch_retries_only_without_device
        (k : nat) (dev : probe) (tries : list probe) :
  dev <> NoDevice ->
  connect_to_switch (repeat NoDevice k ++ dev :: tries)
  = (UsbContext_init dev, k)
  /\ UsbContext_init dev <> Stopped ConnectionError
  /\ connect_to_switch (repeat NoDevice k) = (StillWaiting, k).
Proof.
  intros Hdev.
  assert (Hinit : UsbContext_init dev <> Stopped ConnectionError).
  { destruct dev as [| |addresses]; [contradiction | discriminate |].
    pose proof (usb_context_endpoints_aux addresses) as H.
    exact H. }
  split; [|split; [exact Hinit|]].
  - rewrite connect_to_switch_waits. cbn [connect_to_switch].
    destruct (UsbContext_init dev) as [ctx | e |] eqn:E; cbn [fst snd].
    + now rewrite Nat.add_0_r.
    + destruct e; try (now rewrite Nat.add_0_r). contradiction.
    + now rewrite Nat.add_0_r.
  - rewrite <- (app_nil_r (repeat NoDevice k)), connect_to_switch_waits.
    cbn [connect_to_switch fst snd]. now rewrite Nat.add_0_r.
Qed.

Lemma connect_to_switch_retries_only_without_device_witness :
  connect_to_switch (repeat NoDevice 2 ++ Endpoints [0x81] :: [NoDevice])
  = (UsbContext_init (Endpoints [0x81]), 2%nat)
  /\ UsbContext_init (Endpoints [0x81]) <> Stopped ConnectionError
  /\ connect_to_switch (repeat NoDevice 2) = (StillWaiting, 2%nat).
Proof.
  apply (connect_to_switch_retries_only_without_device
           2 (Endpoints [0x81]) [NoDevice]).
  discriminate.
Defined.

(** X20. [main] checks the directory before it looks for the switch: a path
    that is no directory ends it with [NotADirectoryError] whatever is
    plugged in. With a directory and a switch that is found after some
    waits, [main] runs the command loop on what the switch sends, and the
    loop, given its turns, ends by an exception: [main] does not return.
    What has been written by then has only been added to, and every header
    in it is well framed. *)
Theorem main_ends_by_an_exception
        (joinpath : str -> str -> str) (open_rb : str -> option bytes)
        (work_dir_path : dirtree) (tries : list probe)
        (fuel : nat) (input : bytes) (ctx : UsbContext) (waits : nat) :
  connect_to_switch tries = (Started ctx, waits) ->
  (List.length input < 16 * fuel)%nat ->
  main joinpath open_rb None tries fuel input
  = StartupFailed NotADirectoryError
  /\ exists e w,
       main joinpath open_rb (Some work_dir_path) tries fuel input
       = Session waits (Raise e) w
       /\ later (initial_world input) w
       /\ headers_well_framed w.
Proof.
  intros Hconnect Hlen. split; [reflexivity|].
  unfold main. rewrite Hconnect.
  assert (Hadv : later (initial_world input)
                       (snd (poll_commands joinpath open_rb fuel
                                           work_dir_path
                                           (initial_world input)))).
  { unfold poll_commands.
    apply (advances_bind (log_call INFO MsgEnteringCommandLoop));
      [apply advances_log | intros _; apply advances_poll_loop]. }
  assert (Hframed : headers_well_framed
                      (snd (poll_commands joinpath open_rb fuel
                                          work_dir_path
                                          (initial_world input)))).
  { unfold poll_commands.
    apply (preserves_bind (log_call INFO MsgEnteringCommandLoop));
      [apply preserves_log | intros _; apply preserves_poll_loop
       | intros o b []]. }
  assert (Hend : exists e,
             fst (poll_commands joinpath open_rb fuel work_dir_path
                                (initial_world input)) = Raise e).
  { unfold poll_commands, bind. cbn [log_call].
    match goal with
    | |- exists e, fst (poll_loop _ _ _ _ _ ?W) = _ =>
      pose proof (poll_loop_has_enough_fuel joinpath open_rb fuel
                    work_dir_path None W Hlen) as Hfuel;
        pose proof (never_returns_poll_loop joinpath open_rb fuel
                      work_dir_path None W) as Hret;
        destruct (fst (poll_loop joinpath open_rb fuel work_dir_path None W))
        as [a | e |]
    end.
    - exfalso. exact (Hret a eq_refl).
    - exists e. reflexivity.
    - contradiction. }
  destruct (poll_commands joinpath open_rb fuel work_dir_path
                          (initial_world input)) as [r w].
  cbn [fst snd] in *. destruct Hend as [e ->].
  exists e, w. split; [reflexivity|]. split; [exact Hadv | exact Hframed].
Qed.

Lemma main_ends_by_an_exception_witness :
  main posix_joinpath two_roms_files None
       [NoDevice; Endpoints [0x01; 0x81]] 7 two_roms_session
  = StartupFailed NotADirectoryError
  /\ exists e w,
       main posix_joinpath two_roms_files (Some two_roms)
            [NoDevice; Endpoints [0x01; 0x81]] 7 two_roms_session
       = Session 1 (Raise e) w
       /\ later (initial_world two_roms_session) w
       /\ headers_well_framed w.
Proof.
  apply (main_ends_by_an_exception posix_joinpath two_roms_files two_roms
           [NoDevice; Endpoints [0x01; 0x81]] 7 two_roms_session
           (mkUsbContext 0x01 0x81) 1).
  - reflexivity.
  - cbn. lia.
Defined.

(** ** The order of the list *)

(** X14. The text a LIST sends has one line for every name discovered, in the
    order in which the names were first come across by the walk; a name
    come across again later keeps its line. *)
Theorem listing_is_in_order_of_first_discovery
        (joinpath : str -> str -> str) (work_dir_path : dirtree) :
  join_names (OrderedDict.keys (catalog_of joinpath work_dir_path))
  = List.concat
      (map (fun name => name ++ NEWLINE)
           (first_occurrences
              [] (map fst (discovered joinpath work_dir_path)))).
Proof.
  rewrite join_names_concat, catalog_of_discovered, keys_set_all.
  reflexivity.
Qed.
